(** * SimpleNTRU: a shallow embedding of [simpleNTRU.py]

    The Python class [SimpleNTRU] works with Sage polynomials of [ZZ[x]].
    A polynomial is modelled by its dense coefficient list (index [i] holds the
    coefficient of [x^i]); Sage keeps polynomials normalised, so the
    constructor [R] drops trailing zeros and [coefficients] reads the
    normalised list.  Python exceptions are values of [exn]; a function that
    can raise returns a [result].  The two facilities the class takes from
    outside the repository, [random.sample] and the inversion in Sage's
    quotient ring, are parameters of the development. *)

From Stdlib Require Import ZArith List Lia Bool Arith.
Import ListNotations.
Local Open Scope Z_scope.

Set Implicit Arguments.

(** ** Exceptions *)

Inductive exn : Type :=
| ZeroDivisionError
| ValueError
| IndexError
| RecursionError
| NotImplementedError
| ArithmeticError.

Inductive result (A : Type) : Type :=
| Ok (a : A)
| Raise (e : exn).

Arguments Ok {A} a.
Arguments Raise {A} e.

Definition bind {A B : Type} (r : result A) (k : A -> result B) : result B :=
  match r with
  | Ok a => k a
  | Raise e => Raise e
  end.

Notation "x <- r ;; k" := (bind r (fun x => k))
  (at level 61, r at next level, right associativity).
Notation "' pat <- r ;; k" := (bind r (fun x => match x with pat => k end))
  (at level 61, pat pattern, r at next level, right associativity).

(** [list(map(f, l))] for an [f] that can raise: the first exception wins. *)
Fixpoint map_result {A B : Type} (f : A -> result B) (l : list A) : result (list B) :=
  match l with
  | [] => Ok []
  | a :: t => b <- f a ;; t' <- map_result f t ;; Ok (b :: t')
  end.

(** ** Python integers and lists *)

(** [t % m] on integers: the sign follows the divisor, as [Z.modulo] does;
    a zero divisor raises. *)
Definition py_mod (t m : Z) : result Z :=
  if m =? 0 then Raise ZeroDivisionError else Ok (t mod m).

(** [i % n] for an index [i] and a length [n]. *)
Definition py_mod_nat (i n : nat) : result nat :=
  match n with
  | O => Raise ZeroDivisionError
  | S _ => Ok (Nat.modulo i n)
  end.

(** [l[i]] for a non-negative index. *)
Definition list_get {A : Type} (l : list A) (i : nat) : result A :=
  match nth_error l i with
  | Some a => Ok a
  | None => Raise IndexError
  end.

(** [l[i] = v] for a non-negative index. *)
Fixpoint list_set {A : Type} (l : list A) (i : nat) (v : A) : result (list A) :=
  match l, i with
  | [], _ => Raise IndexError
  | _ :: t, O => Ok (v :: t)
  | a :: t, S i' => t' <- list_set t i' v ;; Ok (a :: t')
  end.

(** [l[i] += c]. *)
Definition list_add_at (l : list Z) (i : nat) (c : Z) : result (list Z) :=
  old <- list_get l i ;; list_set l i (old + c).

(** [if len(l) < n: l.extend([0] * (n - len(l)))]. *)
Definition pad (n : nat) (l : list Z) : list Z :=
  if (length l <? n)%nat then l ++ repeat 0 (n - length l) else l.

(** ** Sage's [ZZ[x]] *)

Definition poly : Type := list Z.

Fixpoint strip (l : list Z) : list Z :=
  match l with
  | [] => []
  | c :: t =>
      match strip t with
      | [] => if c =? 0 then [] else [c]
      | t' => c :: t'
      end
  end.

(** [self.R(coeffs)]. *)
Definition R (coeffs : list Z) : poly := strip coeffs.

(** [poly.coefficients(sparse=False)]: the dense list up to the degree,
    empty for the zero polynomial. *)
Definition coefficients (f : poly) : list Z := strip f.

Fixpoint add_coeffs (a b : list Z) : list Z :=
  match a, b with
  | [], _ => b
  | _, [] => a
  | x :: a', y :: b' => (x + y) :: add_coeffs a' b'
  end.

Fixpoint mul_coeffs (a b : list Z) : list Z :=
  match a with
  | [] => []
  | x :: a' => add_coeffs (map (Z.mul x) b) (0 :: mul_coeffs a' b)
  end.

(** [a + b], [k * a] and [a * b] in [ZZ[x]]. *)
Definition poly_add (a b : poly) : poly := R (add_coeffs a b).
Definition poly_scale (k : Z) (a : poly) : poly := R (map (Z.mul k) a).
Definition poly_mul (a b : poly) : poly := R (mul_coeffs a b).

(** The loop of decryption that centres the coefficients:
    [coeff - q if coeff > q // 2 else coeff]. *)
Definition center_coeff (q coeff : Z) : Z :=
  if coeff >? q / 2 then coeff - q else coeff.

(** A message handed to [encrypt]: a [str] (its code points) or a
    coefficient list. *)
Inductive message : Type :=
| Text (chars : list Z)
| Coeffs (l : list Z).

(** ** The class [SimpleNTRU] *)

Section SimpleNTRU.

(** [self.N], [self.p], [self.q]. *)
Variable N : nat.
Variables p q : Z.

(** The state of the random generator, and [random.sample(range(n), k)]
    for [k <= n] (a larger [k] raises before the generator is used). *)
Variable rng : Type.
Variable sample : nat -> nat -> rng -> list nat * rng.

(** Lines 90-100 of [inv_poly]: the inverse of the class of the
    coefficient list in [Z_m[x]/(x^N - 1)], as the list of its [N] lifted
    coefficients, or the exception Sage raises. *)
Variable quotient_inverse : Z -> nat -> list Z -> result (list Z).

Definition random_sample (n k : nat) (s : rng) : result (list nat * rng) :=
  if (n <? k)%nat then Raise ValueError else Ok (sample n k s).

(** [for i in range(...): coeffs[positions[i]] = v]. *)
Fixpoint assign_loop (positions : list nat) (range : list nat) (v : Z)
         (coeffs : list Z) : result (list Z) :=
  match range with
  | [] => Ok coeffs
  | i :: range' =>
      j <- list_get positions i ;;
      coeffs' <- list_set coeffs j v ;;
      assign_loop positions range' v coeffs'
  end.

Definition random_small_poly (d1 d2 : nat) (s : rng) : result (poly * rng) :=
  let coeffs := repeat 0 N in
  ' (positions, s') <- random_sample N (d1 + d2) s ;;
  coeffs <- assign_loop positions (seq 0 d1) 1 coeffs ;;
  coeffs <- assign_loop positions (seq d1 d2) (-1) coeffs ;;
  Ok (R coeffs, s').

(** The part shared by [poly_mod_q] and [poly_mod_p]. *)
Definition poly_mod (m : Z) (f : poly) : result poly :=
  let coeffs := pad N (coefficients f) in
  new_coeffs <- map_result (fun t => py_mod t m) (firstn N coeffs) ;;
  Ok (R new_coeffs).

Definition poly_mod_q (f : poly) : result poly := poly_mod q f.
Definition poly_mod_p (f : poly) : result poly := poly_mod p f.

(** [for i, coeff in enumerate(coeffs): reduced_coeffs[i % N] += coeff]. *)
Fixpoint reduce_loop (i : nat) (coeffs : list Z) (reduced_coeffs : list Z)
  : result (list Z) :=
  match coeffs with
  | [] => Ok reduced_coeffs
  | coeff :: rest =>
      j <- py_mod_nat i N ;;
      reduced_coeffs' <- list_add_at reduced_coeffs j coeff ;;
      reduce_loop (S i) rest reduced_coeffs'
  end.

Definition poly_reduce (f : poly) : result poly :=
  let coeffs := coefficients f in
  reduced_coeffs <- reduce_loop 0 coeffs (repeat 0 N) ;;
  Ok (R reduced_coeffs).

Definition poly_mult_mod (a b : poly) (mod_ : Z) : result poly :=
  let product := poly_mul a b in
  reduced <- poly_reduce product ;;
  if mod_ =? p then poly_mod_p reduced
  else if mod_ =? q then poly_mod_q reduced
  else Ok reduced.

(** [inv_poly]: whatever the [try] block raises becomes [None]. *)
Definition inv_poly (f : poly) (modulus : Z) : option (list Z) :=
  let poly_coeffs := pad N (coefficients f) in
  match quotient_inverse modulus N (firstn N poly_coeffs) with
  | Ok inverse => Some inverse
  | Raise _ => None
  end.

(** [keygen]; [depth] is the number of nested calls the interpreter still
    allows, the retry being a recursive call. *)
Fixpoint keygen (depth : nat) (s : rng) : result ((poly * poly) * poly * rng) :=
  match depth with
  | O => Raise RecursionError
  | S depth' =>
      let d := (N / 3)%nat in
      ' (f, s1) <- random_small_poly (d + 1) d s ;;
      ' (g, s2) <- random_small_poly d d s1 ;;
      match inv_poly f p, inv_poly f q with
      | Some fp_inv, Some fq_inv =>
          let fp_inv := R (firstn N fp_inv) in
          let fq_inv := R (firstn N fq_inv) in
          h <- poly_mult_mod (poly_scale p fq_inv) g q ;;
          Ok ((f, fp_inv), h, s2)
      | _, _ => keygen depth' s2
      end
  end.

Definition message_coeffs (msg : message) : result (list Z) :=
  match msg with
  | Text chars =>
      cs <- map_result (fun c => py_mod c p) (firstn N chars) ;;
      Ok (pad N cs)
  | Coeffs l => Ok l
  end.

Definition encrypt (msg : message) (public_key : poly) (s : rng)
  : result (poly * rng) :=
  let h := public_key in
  coeffs <- message_coeffs msg ;;
  let m := R coeffs in
  let d := (N / 3)%nat in
  ' (r, s') <- random_small_poly d d s ;;
  c <- poly_mult_mod r h q ;;
  c <- poly_mod_q (poly_add c m) ;;
  Ok (c, s').

(** Lines 185-197 of [decrypt]. *)
Definition center (a : poly) : poly :=
  let a_coeffs := pad N (coefficients a) in
  R (map (center_coeff q) (firstn N a_coeffs)).

Definition decrypt (ciphertext : poly) (private_key : poly * poly) : result poly :=
  let '(f, fp_inv) := private_key in
  let c := ciphertext in
  a <- poly_mult_mod f c q ;;
  let a_centered := center a in
  b <- poly_mod_p a_centered ;;
  poly_mult_mod fp_inv b p.

End SimpleNTRU.

(** * Reasoning about the embedding *)

(** ** Results *)

Lemma bind_ok (A B : Type) (r : result A) (k : A -> result B) (b : B) :
  bind r k = Ok b -> exists a, r = Ok a /\ k a = Ok b.
Proof.
  destruct r as [a|e]; simpl; intros H; [exists a; auto | discriminate].
Qed.

Lemma map_result_ok (A B : Type) (f : A -> result B) (g : A -> B) (l : list A) :
  (forall a, In a l -> f a = Ok (g a)) -> map_result f l = Ok (map g l).
Proof.
  induction l as [|a t IH]; simpl; intros H; [reflexivity|].
  rewrite (H a) by auto. simpl. rewrite IH by auto. reflexivity.
Qed.

Lemma map_py_mod_ok (m : Z) (l : list Z) :
  m <> 0 -> map_result (fun t => py_mod t m) l = Ok (map (fun t => t mod m) l).
Proof.
  intros Hm. apply map_result_ok. intros a _. unfold py_mod.
  destruct (Z.eqb_spec m 0); [contradiction | reflexivity].
Qed.

Lemma map_py_mod_zero (l : list Z) :
  l <> [] -> map_result (fun t => py_mod t 0) l = Raise ZeroDivisionError.
Proof. destruct l; [congruence | reflexivity]. Qed.

(** ** Normalised coefficient lists *)

Lemma strip_nil_iff (l : list Z) : strip l = [] <-> Forall (fun c => c = 0) l.
Proof.
  induction l as [|c t IH]; simpl.
  - split; auto.
  - destruct (strip t) eqn:E.
    + destruct (Z.eqb_spec c 0); split; intros H; try discriminate.
      * constructor; [assumption | apply IH; reflexivity].
      * reflexivity.
      * inversion H; contradiction.
    + split; intros H; [discriminate|].
      inversion H; subst. destruct IH as [_ IH]. specialize (IH H3). discriminate.
Qed.

Lemma nth_all_zero (l : list Z) (k : nat) :
  Forall (fun c => c = 0) l -> nth k l 0 = 0.
Proof.
  intros H. revert k. induction H as [|c t Hc _ IH]; intros [|k]; simpl; auto.
Qed.

Lemma nth_strip (l : list Z) (k : nat) : nth k (strip l) 0 = nth k l 0.
Proof.
  revert k. induction l as [|c t IH]; intros k; simpl; [reflexivity|].
  destruct (strip t) eqn:E.
  - assert (Ht : Forall (fun c => c = 0) t) by (apply strip_nil_iff; exact E).
    destruct (Z.eqb_spec c 0) as [->|Hc]; destruct k as [|k]; simpl; auto.
    + destruct k; symmetry; [apply (nth_all_zero 0 Ht) | apply (nth_all_zero _ Ht)].
    + rewrite (nth_all_zero _ Ht). destruct k; reflexivity.
  - destruct k as [|k]; simpl; [reflexivity | apply IH].
Qed.

Lemma length_strip (l : list Z) : (length (strip l) <= length l)%nat.
Proof.
  induction l as [|c t IH]; simpl; [lia|].
  destruct (strip t); [destruct (c =? 0)|]; simpl in *; lia.
Qed.

Lemma Forall_strip (P : Z -> Prop) (l : list Z) : Forall P l -> Forall P (strip l).
Proof.
  induction 1 as [|c t Hc Ht IH]; simpl; [constructor|].
  destruct (strip t); [destruct (c =? 0)|]; auto.
Qed.

Lemma strip_last_nonzero (l : list Z) : strip l <> [] -> last (strip l) 0 <> 0.
Proof.
  induction l as [|c t IH]; simpl; [congruence|].
  destruct (strip t) eqn:E.
  - destruct (Z.eqb_spec c 0); simpl; congruence.
  - intros _. change (last (c :: z :: l) 0) with (last (z :: l) 0).
    apply IH. discriminate.
Qed.

Lemma strip_fixed (l : list Z) : (l = [] \/ last l 0 <> 0) -> strip l = l.
Proof.
  induction l as [|c t IH]; simpl; [reflexivity|]. intros [H|H]; [discriminate|].
  destruct t as [|c' t'].
  - simpl in *. destruct (Z.eqb_spec c 0); congruence.
  - rewrite IH by (right; exact H). reflexivity.
Qed.

Lemma strip_idem (l : list Z) : strip (strip l) = strip l.
Proof.
  apply strip_fixed. destruct (strip l) eqn:E; [left; reflexivity|].
  right. rewrite <- E. apply strip_last_nonzero. congruence.
Qed.

(** Two lists with the same coefficients normalise to the same polynomial. *)
Lemma strip_ext (a b : list Z) :
  (forall k, nth k a 0 = nth k b 0) -> strip a = strip b.
Proof.
  revert b. induction a as [|x a IH]; intros b H.
  - simpl. symmetry. apply strip_nil_iff.
    revert H. induction b as [|y b IHb]; intros H; constructor.
    + symmetry. exact (H 0%nat).
    + apply IHb. intros k. specialize (H (S k)). destruct k; exact H.
  - destruct b as [|y b].
    + transitivity (@nil Z); [|reflexivity]. apply strip_nil_iff.
      assert (Hall : forall k, nth k (x :: a) 0 = 0).
      { intros k. rewrite H. destruct k; reflexivity. }
      clear H IH. revert Hall. generalize (x :: a). intros l.
      induction l as [|z l IHl]; intros H; constructor.
      * exact (H 0%nat).
      * apply IHl. intros k. exact (H (S k)).
    + simpl. rewrite (IH b) by (intros k; exact (H (S k))).
      specialize (H 0%nat). simpl in H. subst y. reflexivity.
Qed.

Lemma coefficients_R (l : list Z) : coefficients (R l) = R l.
Proof. apply strip_idem. Qed.

Lemma nth_coefficients (f : poly) (k : nat) : nth k (coefficients f) 0 = nth k f 0.
Proof. apply nth_strip. Qed.

Lemma nth_R (l : list Z) (k : nat) : nth k (R l) 0 = nth k l 0.
Proof. apply nth_strip. Qed.

Lemma count_occ_strip (l : list Z) (c : Z) :
  c <> 0 -> count_occ Z.eq_dec (strip l) c = count_occ Z.eq_dec l c.
Proof.
  intros Hc. induction l as [|x t IH]; [reflexivity|].
  cbn [strip]. destruct (strip t) eqn:E.
  - destruct (Z.eqb_spec x 0) as [->|Hx].
    + rewrite count_occ_cons_neq by congruence. exact IH.
    + destruct (Z.eq_dec x c).
      * rewrite !count_occ_cons_eq by assumption. rewrite <- IH. reflexivity.
      * rewrite !count_occ_cons_neq by assumption. exact IH.
  - destruct (Z.eq_dec x c).
    + rewrite !(@count_occ_cons_eq _ Z.eq_dec _ x c) by assumption. rewrite IH. reflexivity.
    + rewrite !(@count_occ_cons_neq _ Z.eq_dec _ x c) by assumption. exact IH.
Qed.

(** ** Padding and truncation *)

Lemma length_pad (n : nat) (l : list Z) : (n <= length (pad n l))%nat.
Proof.
  unfold pad. destruct (Nat.ltb_spec (length l) n); [|assumption].
  rewrite length_app, repeat_length. lia.
Qed.

Lemma nth_repeat_zero (n k : nat) : nth k (repeat 0 n) 0 = 0.
Proof. apply nth_all_zero. apply Forall_forall. intros x Hx. apply repeat_spec in Hx. exact Hx. Qed.

Lemma nth_pad (n : nat) (l : list Z) (k : nat) : nth k (pad n l) 0 = nth k l 0.
Proof.
  unfold pad. destruct (Nat.ltb_spec (length l) n); [|reflexivity].
  destruct (Nat.lt_ge_cases k (length l)).
  - apply app_nth1. assumption.
  - rewrite app_nth2 by assumption. rewrite nth_repeat_zero.
    symmetry. apply nth_overflow. assumption.
Qed.

Lemma length_firstn_pad (n : nat) (l : list Z) : length (firstn n (pad n l)) = n.
Proof. rewrite length_firstn. pose proof (length_pad n l). lia. Qed.

Lemma nth_firstn (A : Type) (d : A) (n k : nat) (l : list A) :
  nth k (firstn n l) d = if (k <? n)%nat then nth k l d else d.
Proof.
  revert k l. induction n as [|n IH]; intros k l.
  - simpl. destruct k; reflexivity.
  - destruct l as [|a l]; simpl.
    + destruct k; [reflexivity|]. destruct (S k <? S n)%nat; reflexivity.
    + destruct k as [|k]; [reflexivity|]. rewrite IH. reflexivity.
Qed.

Lemma nth_map_lt (f : Z -> Z) (l : list Z) (k : nat) :
  (k < length l)%nat -> nth k (map f l) 0 = f (nth k l 0).
Proof.
  revert k. induction l as [|a t IH]; intros k Hk; simpl in *; [lia|].
  destruct k as [|k]; [reflexivity | apply IH; lia].
Qed.

(** ** List updates *)

Fixpoint upd (l : list Z) (j : nat) (x : Z) : list Z :=
  match l, j with
  | [], _ => []
  | _ :: t, O => x :: t
  | a :: t, S j' => a :: upd t j' x
  end.

Lemma list_set_ok (l : list Z) (j : nat) (x : Z) :
  (j < length l)%nat -> list_set l j x = Ok (upd l j x).
Proof.
  revert j. induction l as [|a t IH]; intros j Hj; simpl in *; [lia|].
  destruct j as [|j]; [reflexivity|]. rewrite IH by lia. reflexivity.
Qed.

Lemma list_set_raise (A : Type) (l : list A) (j : nat) (x : A) :
  (length l <= j)%nat -> list_set l j x = Raise IndexError.
Proof.
  revert j. induction l as [|a t IH]; intros j Hj; simpl in *; [reflexivity|].
  destruct j as [|j]; [lia|]. rewrite IH by lia. reflexivity.
Qed.

Lemma list_get_ok (A : Type) (d : A) (l : list A) (j : nat) :
  (j < length l)%nat -> list_get l j = Ok (nth j l d).
Proof.
  intros Hj. unfold list_get. rewrite (nth_error_nth' l d Hj). reflexivity.
Qed.

Lemma list_get_raise (A : Type) (l : list A) (j : nat) :
  (length l <= j)%nat -> list_get l j = Raise IndexError.
Proof.
  intros Hj. unfold list_get.
  destruct (nth_error l j) eqn:E; [|reflexivity].
  assert (nth_error l j <> None) by congruence.
  apply nth_error_Some in H. lia.
Qed.

Lemma length_upd (l : list Z) (j : nat) (x : Z) : length (upd l j x) = length l.
Proof.
  revert j. induction l as [|a t IH]; intros [|j]; simpl; auto.
Qed.

Lemma nth_upd (l : list Z) (j i : nat) (x : Z) :
  (j < length l)%nat ->
  nth i (upd l j x) 0 = if (i =? j)%nat then x else nth i l 0.
Proof.
  revert j i. induction l as [|a t IH]; intros j i Hj; simpl in *; [lia|].
  destruct j as [|j]; destruct i as [|i]; simpl; auto.
  apply IH. lia.
Qed.

Lemma list_add_at_ok (l : list Z) (j : nat) (c : Z) :
  (j < length l)%nat -> list_add_at l j c = Ok (upd l j (nth j l 0 + c)).
Proof.
  intros Hj. unfold list_add_at. rewrite (list_get_ok 0 l Hj). simpl.
  apply list_set_ok. assumption.
Qed.

(** ** Coefficients of sums and multiples *)

Lemma nth_add_coeffs (a b : list Z) (k : nat) :
  nth k (add_coeffs a b) 0 = nth k a 0 + nth k b 0.
Proof.
  revert b k. induction a as [|x a IH]; intros b k; simpl.
  - destruct k; reflexivity.
  - destruct b as [|y b]; simpl.
    + destruct k; lia.
    + destruct k as [|k]; [reflexivity | apply IH].
Qed.

Lemma nth_map_mul (c : Z) (a : list Z) (k : nat) :
  nth k (map (Z.mul c) a) 0 = c * nth k a 0.
Proof.
  revert k. induction a as [|x a IH]; intros [|k]; simpl; auto; lia.
Qed.

Lemma length_add_coeffs (a b : list Z) :
  length (add_coeffs a b) = Nat.max (length a) (length b).
Proof.
  revert b. induction a as [|x a IH]; intros [|y b]; simpl; auto.
Qed.

(** ** Polynomials acting on sequences

    A coefficient list [a] acts on a sequence [v] by
    [(a . v) k = sum_i a_i * v (k + i)].  The product of [ZZ[x]] acts as the
    composition of the factors, which gives its algebra without any
    reindexing of sums; on [N]-periodic sequences two lists act alike
    exactly when they agree modulo [x^N - 1]. *)

Definition shift (v : nat -> Z) : nat -> Z := fun k => v (S k).

Fixpoint act (a : list Z) (v : nat -> Z) (k : nat) : Z :=
  match a with
  | [] => 0
  | x :: a' => x * v k + act a' (shift v) k
  end.

Lemma act_ext (a : list Z) (v w : nat -> Z) :
  (forall k, v k = w k) -> forall k, act a v k = act a w k.
Proof.
  revert v w. induction a as [|x a IH]; intros v w H k; simpl; [reflexivity|].
  rewrite H. f_equal. apply IH. intros j. apply H.
Qed.

Lemma act_shift (a : list Z) (v : nat -> Z) (k : nat) :
  act a (shift v) k = act a v (S k).
Proof.
  revert v. induction a as [|x a IH]; intros v; simpl; [reflexivity|].
  rewrite IH. reflexivity.
Qed.

Lemma act_shift_n (a : list Z) (v : nat -> Z) (k i : nat) :
  act a (fun j => v (j + i)%nat) k = act a v (k + i)%nat.
Proof.
  revert v k. induction i as [|i IH]; intros v k.
  - rewrite Nat.add_0_r. apply act_ext. intros j. f_equal. lia.
  - replace (k + S i)%nat with (S k + i)%nat by lia.
    rewrite <- IH, <- act_shift. apply act_ext. intros j. unfold shift.
    f_equal. lia.
Qed.

Lemma act_all_zero (a : list Z) (v : nat -> Z) (k : nat) :
  Forall (fun c => c = 0) a -> act a v k = 0.
Proof.
  intros H. revert v. induction H as [|x a Hx _ IH]; intros v; simpl; [reflexivity|].
  rewrite IH, Hx. lia.
Qed.

Lemma act_strip (a : list Z) (v : nat -> Z) (k : nat) :
  act (strip a) v k = act a v k.
Proof.
  revert v. induction a as [|x a IH]; intros v; [reflexivity|].
  cbn [strip]. destruct (strip a) eqn:E.
  - assert (Ha : Forall (fun c => c = 0) a) by (apply strip_nil_iff; exact E).
    cbn [act]. rewrite (act_all_zero _ _ Ha).
    destruct (Z.eqb_spec x 0) as [->|Hx]; simpl; lia.
  - cbn [act]. rewrite <- IH. reflexivity.
Qed.

Lemma act_add (a b : list Z) (v : nat -> Z) (k : nat) :
  act (add_coeffs a b) v k = act a v k + act b v k.
Proof.
  revert b v. induction a as [|x a IH]; intros b v; simpl; [reflexivity|].
  destruct b as [|y b]; simpl; [lia|]. rewrite IH. lia.
Qed.

Lemma act_scale (c : Z) (a : list Z) (v : nat -> Z) (k : nat) :
  act (map (Z.mul c) a) v k = c * act a v k.
Proof.
  revert v. induction a as [|x a IH]; intros v; simpl; [lia|].
  rewrite IH. lia.
Qed.

Lemma act_mul (a b : list Z) (v : nat -> Z) (k : nat) :
  act (mul_coeffs a b) v k = act a (act b v) k.
Proof.
  revert v k. induction a as [|x a IH]; intros v k; simpl; [reflexivity|].
  rewrite act_add, act_scale. cbn [act].
  rewrite !act_shift, IH. lia.
Qed.

Lemma act_lin_scale (c : Z) (a : list Z) (v : nat -> Z) (k : nat) :
  act a (fun j => c * v j) k = c * act a v k.
Proof.
  revert v. induction a as [|x a IH]; intros v; simpl; [lia|].
  change (shift (fun j => c * v j)) with (fun j => c * shift v j).
  rewrite IH. lia.
Qed.

Lemma act_lin_add (a : list Z) (v w : nat -> Z) (k : nat) :
  act a (fun j => v j + w j) k = act a v k + act a w k.
Proof.
  revert v w. induction a as [|x a IH]; intros v w; simpl; [lia|].
  change (shift (fun j => v j + w j)) with (fun j => shift v j + shift w j).
  rewrite IH. lia.
Qed.

Lemma act_zero_seq (a : list Z) (v : nat -> Z) (k : nat) :
  (forall j, v j = 0) -> act a v k = 0.
Proof.
  revert v. induction a as [|x a IH]; intros v H; simpl; [reflexivity|].
  rewrite H, IH by (intros j; apply H). lia.
Qed.

Lemma act_comm (a b : list Z) (v : nat -> Z) (k : nat) :
  act a (act b v) k = act b (act a v) k.
Proof.
  revert v k. induction a as [|x a IH]; intros v k; simpl.
  - symmetry. apply act_zero_seq. reflexivity.
  - rewrite (act_ext a (shift (act b v)) (act b (shift v)))
      by (intros j; unfold shift at 1; symmetry; apply act_shift).
    rewrite IH.
    rewrite <- act_lin_scale, <- act_lin_add. reflexivity.
Qed.

Lemma act_divisible (m : Z) (a : list Z) (v : nat -> Z) (k : nat) :
  (forall i, (m | nth i a 0)) -> (m | act a v k).
Proof.
  revert v. induction a as [|x a IH]; intros v H; simpl.
  - apply Z.divide_0_r.
  - apply Z.divide_add_r.
    + apply Z.divide_mul_l. exact (H 0%nat).
    + apply IH. intros i. exact (H (S i)).
Qed.

Lemma act_cong_coeffs (m : Z) (a b : list Z) (v : nat -> Z) (k : nat) :
  (forall i, (m | nth i a 0 - nth i b 0)) -> (m | act a v k - act b v k).
Proof.
  intros H.
  replace (act a v k - act b v k)
    with (act (add_coeffs a (map (Z.mul (-1)) b)) v k)
    by (rewrite act_add, act_scale; lia).
  apply act_divisible. intros i. rewrite nth_add_coeffs, nth_map_mul.
  replace (nth i a 0 + -1 * nth i b 0) with (nth i a 0 - nth i b 0) by lia.
  apply H.
Qed.

Lemma act_cong_seq (m : Z) (a : list Z) (v w : nat -> Z) (k : nat) :
  (forall j, (m | v j - w j)) -> (m | act a v k - act a w k).
Proof.
  revert v w. induction a as [|x a IH]; intros v w H; simpl.
  - apply Z.divide_0_r.
  - replace (x * v k + act a (shift v) k - (x * w k + act a (shift w) k))
      with (x * (v k - w k) + (act a (shift v) k - act a (shift w) k)) by lia.
    apply Z.divide_add_r.
    + apply Z.divide_mul_r. apply H.
    + apply IH. intros j. apply H.
Qed.

Lemma act_upd (l : list Z) (j : nat) (x : Z) (v : nat -> Z) (k : nat) :
  (j < length l)%nat ->
  act (upd l j x) v k = act l v k + (x - nth j l 0) * v (k + j)%nat.
Proof.
  revert j v. induction l as [|a t IH]; intros j v Hj; simpl in *; [lia|].
  destruct j as [|j]; simpl.
  - rewrite Nat.add_0_r. lia.
  - rewrite IH by lia.
    replace (shift v (k + j)%nat) with (v (k + S j)%nat)
      by (unfold shift; f_equal; lia).
    lia.
Qed.

(** A sequence that is 1 at one place of the window of [a] and 0 at the
    others reads off one coefficient. *)
Lemma act_indicator (a : list Z) (v : nat -> Z) (k t : nat) :
  (forall i, (i < length a)%nat -> v (k + i)%nat = if (i =? t)%nat then 1 else 0) ->
  act a v k = nth t a 0.
Proof.
  revert v t. induction a as [|x a IH]; intros v t H; simpl.
  - destruct t; reflexivity.
  - assert (H0 := H 0%nat). simpl in H0. rewrite Nat.add_0_r in H0.
    rewrite H0 by lia.
    assert (Hs : forall i, (i < length a)%nat ->
                           shift v (k + i)%nat = if (S i =? t)%nat then 1 else 0).
    { intros i Hi. unfold shift. rewrite <- (H (S i)) by (simpl; lia).
      f_equal. lia. }
    destruct t as [|t].
    + simpl. rewrite (IH (shift v) (length a)).
      * rewrite nth_overflow by lia. lia.
      * intros i Hi. rewrite Hs by assumption. simpl.
        destruct (Nat.eqb_spec i (length a)); [lia | reflexivity].
    + simpl. rewrite (IH (shift v) t); [lia|].
      intros i Hi. rewrite Hs by assumption. reflexivity.
Qed.

(** ** Periodic sequences *)

Definition periodic (n : nat) (v : nat -> Z) : Prop :=
  forall k, v (k + n)%nat = v k.

Lemma periodic_shift (n : nat) (v : nat -> Z) : periodic n v -> periodic n (shift v).
Proof. intros H k. unfold shift. exact (H (S k)). Qed.

Lemma periodic_act (n : nat) (a : list Z) (v : nat -> Z) :
  periodic n v -> periodic n (act a v).
Proof.
  revert v. induction a as [|x a IH]; intros v H k; simpl; [reflexivity|].
  rewrite H. rewrite (IH (shift v) (periodic_shift H)). reflexivity.
Qed.

Lemma periodic_mul (n : nat) (v : nat -> Z) (r c : nat) :
  periodic n v -> v (r + c * n)%nat = v r.
Proof.
  intros H. induction c as [|c IH]; simpl.
  - f_equal. lia.
  - replace (r + (n + c * n))%nat with ((r + c * n) + n)%nat by lia.
    rewrite H. exact IH.
Qed.

Lemma periodic_mod (n : nat) (v : nat -> Z) (k : nat) :
  periodic n v -> v (k mod n)%nat = v k.
Proof.
  intros H. rewrite (Nat.div_mod_eq k n) at 2.
  replace (n * (k / n) + k mod n)%nat with (k mod n + (k / n) * n)%nat by lia.
  symmetry. apply periodic_mul. assumption.
Qed.

(** The sequence that is 1 at the multiples of [n]. *)
Definition delta (n : nat) : nat -> Z :=
  fun k => if (k mod n =? 0)%nat then 1 else 0.

Lemma periodic_delta (n : nat) : periodic n (delta n).
Proof.
  intros k. unfold delta. destruct n as [|n].
  - rewrite Nat.add_0_r. reflexivity.
  - replace (k + S n)%nat with (k + 1 * S n)%nat by lia.
    rewrite Nat.Div0.mod_add. reflexivity.
Qed.

Lemma delta_window (n j i : nat) :
  (j < n)%nat -> (i < n)%nat ->
  delta n (n - j + i)%nat = if (i =? j)%nat then 1 else 0.
Proof.
  intros Hj Hi. unfold delta.
  destruct (Nat.eqb_spec i j) as [->|Hij].
  - replace (n - j + j)%nat with n by lia. rewrite Nat.Div0.mod_same. reflexivity.
  - destruct (Nat.lt_ge_cases i j).
    + rewrite Nat.mod_small by lia.
      destruct (Nat.eqb_spec (n - j + i) 0); [lia | reflexivity].
    + replace (n - j + i)%nat with ((i - j) + 1 * n)%nat by lia.
      rewrite Nat.Div0.mod_add, Nat.mod_small by lia.
      destruct (Nat.eqb_spec (i - j) 0); [lia | reflexivity].
Qed.

(** A list no longer than [n] is read back from its action on [delta n]. *)
Lemma act_delta (n : nat) (a : list Z) (j : nat) :
  (length a <= n)%nat -> (j < n)%nat -> act a (delta n) (n - j) = nth j a 0.
Proof.
  intros Ha Hj. apply act_indicator. intros i Hi. apply delta_window; lia.
Qed.

(** Congruence modulo [m] and [x^n - 1], through the action on periodic
    sequences. *)
Definition ring_cong (n : nat) (m : Z) (a b : list Z) : Prop :=
  forall v k, periodic n v -> (m | act a v k - act b v k).

Lemma ring_cong_refl (n : nat) (m : Z) (a : list Z) : ring_cong n m a a.
Proof. intros v k _. rewrite Z.sub_diag. apply Z.divide_0_r. Qed.

Lemma ring_cong_sym (n : nat) (m : Z) (a b : list Z) :
  ring_cong n m a b -> ring_cong n m b a.
Proof.
  intros H v k Hv. replace (act b v k - act a v k) with (- (act a v k - act b v k)) by lia.
  apply Z.divide_opp_r. apply H. assumption.
Qed.

Lemma ring_cong_trans (n : nat) (m : Z) (a b c : list Z) :
  ring_cong n m a b -> ring_cong n m b c -> ring_cong n m a c.
Proof.
  intros H1 H2 v k Hv.
  replace (act a v k - act c v k)
    with ((act a v k - act b v k) + (act b v k - act c v k)) by lia.
  apply Z.divide_add_r; [apply H1 | apply H2]; assumption.
Qed.

Lemma ring_cong_mul (n : nat) (m : Z) (a a' b b' : list Z) :
  ring_cong n m a a' -> ring_cong n m b b' ->
  ring_cong n m (mul_coeffs a b) (mul_coeffs a' b').
Proof.
  intros Ha Hb v k Hv. rewrite !act_mul.
  replace (act a (act b v) k - act a' (act b' v) k)
    with ((act a (act b v) k - act a (act b' v) k)
          + (act a (act b' v) k - act a' (act b' v) k)) by lia.
  apply Z.divide_add_r.
  - apply act_cong_seq. intros j. apply Hb. assumption.
  - apply Ha. apply periodic_act. assumption.
Qed.

Lemma ring_cong_add (n : nat) (m : Z) (a a' b b' : list Z) :
  ring_cong n m a a' -> ring_cong n m b b' ->
  ring_cong n m (add_coeffs a b) (add_coeffs a' b').
Proof.
  intros Ha Hb v k Hv. rewrite !act_add.
  replace (act a v k + act b v k - (act a' v k + act b' v k))
    with ((act a v k - act a' v k) + (act b v k - act b' v k)) by lia.
  apply Z.divide_add_r; [apply Ha | apply Hb]; assumption.
Qed.

Lemma ring_cong_scale (n : nat) (m c : Z) (a a' : list Z) :
  ring_cong n m a a' -> ring_cong n m (map (Z.mul c) a) (map (Z.mul c) a').
Proof.
  intros Ha v k Hv. rewrite !act_scale.
  replace (c * act a v k - c * act a' v k) with (c * (act a v k - act a' v k)) by lia.
  apply Z.divide_mul_r. apply Ha. assumption.
Qed.

Lemma ring_cong_strip_l (n : nat) (m : Z) (a : list Z) : ring_cong n m (strip a) a.
Proof. intros v k _. rewrite act_strip, Z.sub_diag. apply Z.divide_0_r. Qed.

(** Two lists no longer than [n] that are congruent have congruent
    coefficients. *)
Lemma ring_cong_coeffs (n : nat) (m : Z) (a b : list Z) (j : nat) :
  (length a <= n)%nat -> (length b <= n)%nat ->
  ring_cong n m a b -> (m | nth j a 0 - nth j b 0).
Proof.
  intros Ha Hb H. destruct (Nat.lt_ge_cases j n) as [Hj|Hj].
  - rewrite <- (act_delta a Ha Hj), <- (act_delta b Hb Hj).
    apply H. apply periodic_delta.
  - rewrite !nth_overflow by lia. apply Z.divide_0_r.
Qed.

Lemma cong_small_eq (m x y : Z) :
  0 <= x < m -> 0 <= y < m -> (m | x - y) -> x = y.
Proof.
  intros Hx Hy [t Ht].
  assert (t = 0) by nia. subst t. lia.
Qed.

Lemma mod_divide_sub (m x : Z) : m <> 0 -> (m | x mod m - x).
Proof.
  intros Hm. exists (- (x / m)). pose proof (Z.div_mod x m Hm). lia.
Qed.

(** ** The ring operations of the class *)

Section RingOperations.

Variable N : nat.
Hypothesis N_pos : N <> 0%nat.

Lemma py_mod_nat_ok (i : nat) : py_mod_nat i N = Ok (i mod N)%nat.
Proof. unfold py_mod_nat. destruct N; [contradiction | reflexivity]. Qed.

Lemma mod_lt_N (i : nat) : (i mod N < N)%nat.
Proof. apply Nat.mod_upper_bound. exact N_pos. Qed.

(** The folding loop never raises; what it adds to the accumulator acts
    on periodic sequences as the coefficients it consumed. *)
Lemma reduce_loop_ok (coeffs : list Z) (i : nat) (acc : list Z) :
  length acc = N ->
  exists acc',
    reduce_loop N i coeffs acc = Ok acc' /\ length acc' = N /\
    forall v k, periodic N v ->
                act acc' v k = act acc v k + act coeffs v (k + i)%nat.
Proof.
  revert i acc. induction coeffs as [|c rest IH]; intros i acc Hacc.
  - exists acc. simpl. repeat split; auto. intros; lia.
  - simpl. rewrite py_mod_nat_ok. simpl.
    assert (Hj : (i mod N < length acc)%nat) by (rewrite Hacc; apply mod_lt_N).
    rewrite (list_add_at_ok acc c Hj). simpl.
    destruct (IH (S i) (upd acc (i mod N) (nth (i mod N) acc 0 + c)))
      as (acc' & Hrun & Hlen & Hact).
    { rewrite length_upd. assumption. }
    exists acc'. repeat split; auto.
    intros v k Hv. rewrite (Hact v k Hv), act_upd by assumption.
    rewrite act_shift.
    assert (Hper : v (k + i mod N)%nat = v (k + i)%nat).
    { assert (Hvk : periodic N (fun j => v (k + j)%nat)).
      { intros j. replace (k + (j + N))%nat with ((k + j) + N)%nat by lia. apply Hv. }
      exact (periodic_mod i Hvk). }
    rewrite Hper. replace (k + S i)%nat with (S (k + i)) by lia. lia.
Qed.

Lemma act_repeat_zero (n : nat) (v : nat -> Z) (k : nat) : act (repeat 0 n) v k = 0.
Proof.
  apply act_all_zero. apply Forall_forall. intros x Hx.
  apply repeat_spec in Hx. exact Hx.
Qed.

(** [poly_reduce] returns a polynomial of degree below [N] that is
    congruent to its argument modulo [x^N - 1]. *)
Lemma poly_reduce_ok (f : poly) :
  exists g,
    poly_reduce N f = Ok g /\ (length g <= N)%nat /\ strip g = g /\
    forall v k, periodic N v -> act g v k = act f v k.
Proof.
  unfold poly_reduce.
  destruct (reduce_loop_ok (coefficients f) 0 (repeat 0 N) (repeat_length 0 N))
    as (acc & Hrun & Hlen & Hact).
  rewrite Hrun. simpl. exists (R acc). repeat split.
  - unfold R. rewrite <- Hlen. apply length_strip.
  - apply strip_idem.
  - intros v k Hv. unfold R. rewrite act_strip, (Hact v k Hv).
    rewrite act_repeat_zero, Nat.add_0_r. unfold coefficients.
    rewrite act_strip. lia.
Qed.

(** The coefficient reduction: what it returns when the modulus is not 0. *)
Definition reduced_coeffs (m : Z) (f : poly) : list Z :=
  map (fun t => t mod m) (firstn N (pad N (coefficients f))).

Lemma poly_mod_ok (m : Z) (f : poly) :
  m <> 0 -> poly_mod N m f = Ok (R (reduced_coeffs m f)).
Proof.
  intros Hm. unfold poly_mod. rewrite map_py_mod_ok by assumption. reflexivity.
Qed.

Lemma poly_mod_zero (f : poly) : poly_mod N 0 f = Raise ZeroDivisionError.
Proof.
  unfold poly_mod. rewrite map_py_mod_zero; [reflexivity|].
  intros E. pose proof (length_firstn_pad N (coefficients f)) as H.
  rewrite E in H. simpl in H. congruence.
Qed.

Lemma length_reduced_coeffs (m : Z) (f : poly) : length (reduced_coeffs m f) = N.
Proof. unfold reduced_coeffs. rewrite length_map. apply length_firstn_pad. Qed.

Lemma nth_reduced_coeffs (m : Z) (f : poly) (k : nat) :
  nth k (reduced_coeffs m f) 0 = if (k <? N)%nat then nth k f 0 mod m else 0.
Proof.
  clear N_pos. unfold reduced_coeffs.
  destruct (Nat.ltb_spec k N) as [Hk|Hk].
  - rewrite nth_map_lt by (rewrite length_firstn_pad; assumption).
    rewrite nth_firstn.
    destruct (Nat.ltb_spec k N); [|lia].
    rewrite nth_pad, nth_coefficients. reflexivity.
  - apply nth_overflow. rewrite length_map, length_firstn_pad. assumption.
Qed.

Lemma reduced_coeffs_range (m : Z) (f : poly) :
  0 < m -> Forall (fun c => 0 <= c < m) (reduced_coeffs m f).
Proof.
  intros Hm. unfold reduced_coeffs. apply Forall_forall. intros x Hx.
  apply in_map_iff in Hx. destruct Hx as (t & <- & _).
  apply Z.mod_pos_bound. assumption.
Qed.

(** On a polynomial of degree below [N] the coefficient reduction is a
    congruence modulo [m]. *)
Lemma reduced_coeffs_cong (m : Z) (f : poly) :
  m <> 0 -> (length (coefficients f) <= N)%nat ->
  ring_cong N m (R (reduced_coeffs m f)) f.
Proof.
  intros Hm Hlen v k _. unfold R. rewrite act_strip.
  apply act_cong_coeffs. intros i. rewrite nth_reduced_coeffs.
  destruct (Nat.ltb_spec i N) as [Hi|Hi].
  - apply mod_divide_sub. assumption.
  - rewrite <- nth_coefficients, nth_overflow by lia. apply Z.divide_0_r.
Qed.

Variables p q : Z.

(** [poly_mult_mod] with the modulus [p] or [q]: it returns, its result
    has degree below [N] and reduced coefficients, and it is congruent to
    the product. *)
Lemma poly_mult_mod_ok (a b : poly) (m : Z) :
  m <> 0 -> m = p \/ m = q ->
  exists g,
    poly_mult_mod N p q a b m = Ok g /\
    (length g <= N)%nat /\ strip g = g /\
    (0 < m -> Forall (fun c => 0 <= c < m) g) /\
    ring_cong N m g (mul_coeffs a b).
Proof.
  intros Hm Hpq. unfold poly_mult_mod.
  destruct (poly_reduce_ok (poly_mul a b)) as (red & Hred & Hlen & Hnorm & Hact).
  rewrite Hred. simpl.
  assert (Hgoal : exists g, poly_mod N m red = Ok g /\
              (length g <= N)%nat /\ strip g = g /\
              (0 < m -> Forall (fun c => 0 <= c < m) g) /\
              ring_cong N m g (mul_coeffs a b)).
  { exists (R (reduced_coeffs m red)). split; [apply poly_mod_ok; assumption|].
    split; [|split; [|split]].
    - unfold R. rewrite <- (length_reduced_coeffs m red). apply length_strip.
    - apply strip_idem.
    - intros Hpos. apply Forall_strip. apply reduced_coeffs_range. assumption.
    - apply ring_cong_trans with red.
      + apply reduced_coeffs_cong; [assumption|].
        unfold coefficients. rewrite Hnorm. assumption.
      + intros v k Hv. rewrite (Hact v k Hv). unfold poly_mul, R.
        rewrite act_strip, Z.sub_diag. apply Z.divide_0_r. }
  destruct (Z.eqb_spec m p) as [Hp|Hp].
  - unfold poly_mod_p. rewrite <- Hp. exact Hgoal.
  - destruct Hpq as [Hq|Hq]; [contradiction|].
    destruct (Z.eqb_spec m q) as [_|Hq']; [|contradiction].
    unfold poly_mod_q. rewrite <- Hq. exact Hgoal.
Qed.

(** With any other modulus the coefficients are left as they are. *)
Lemma poly_mult_mod_other (a b : poly) (m : Z) :
  m <> p -> m <> q -> poly_mult_mod N p q a b m = poly_reduce N (poly_mul a b).
Proof.
  intros Hp Hq. unfold poly_mult_mod.
  destruct (poly_reduce N (poly_mul a b)); simpl; [|reflexivity].
  destruct (Z.eqb_spec m p); [contradiction|].
  destruct (Z.eqb_spec m q); [contradiction|]. reflexivity.
Qed.

End RingOperations.

(** Congruence modulo [m] and [x^N - 1], said with the class's own
    reduction: the two residues modulo [x^N - 1] have coefficients that are
    congruent modulo [m]. *)
Definition congruent (N : nat) (m : Z) (a b : poly) : Prop :=
  exists ra rb,
    poly_reduce N a = Ok ra /\ poly_reduce N b = Ok rb /\
    forall k, (m | nth k ra 0 - nth k rb 0).

Lemma congruent_ring_cong (N : nat) (m : Z) (a b : poly) :
  N <> 0%nat -> (congruent N m a b <-> ring_cong N m a b).
Proof.
  intros HN.
  destruct (poly_reduce_ok HN a) as (ra & Hra & Hla & _ & Hacta).
  destruct (poly_reduce_ok HN b) as (rb & Hrb & Hlb & _ & Hactb).
  split.
  - intros (ra' & rb' & Ha & Hb & Hk) v k Hv.
    rewrite Hra in Ha. rewrite Hrb in Hb. inversion Ha; inversion Hb; subst ra' rb'.
    rewrite <- (Hacta v k Hv), <- (Hactb v k Hv).
    apply act_cong_coeffs. exact Hk.
  - intros H. exists ra, rb. repeat split; auto. intros k.
    apply (@ring_cong_coeffs N m ra rb k Hla Hlb).
    intros v j Hv. rewrite (Hacta v j Hv), (Hactb v j Hv). apply H. assumption.
Qed.

(** * The claims *)

(** ** Ring closure *)

(** C3: with a modulus that is neither [p] nor [q] the product is folded
    modulo [x^N - 1] but its coefficients are returned unreduced: for
    [N = 11], [p = 3], [q = 32] the product of the constants 4 and 2 with
    modulus 5 is the constant 8, which is not in [0, 5). *)
Theorem poly_mult_mod_unreduced :
  poly_mult_mod 11 3 32 [4] [2] 5 = Ok [8] /\ ~ (0 <= 8 < 5).
Proof. split; [vm_compute; reflexivity | lia]. Qed.

(** ** Centering *)

(** C4: on a polynomial of degree below [N] with coefficients in [0, q),
    the centering step of [decrypt] turns a coefficient [c] into [c - q]
    exactly when [c > q/2] (that is, [2c > q]) and leaves it as it is
    otherwise; the new coefficient lies in (-q/2, q/2], and a coefficient
    equal to [q/2], for even [q], stays [q/2]. *)
Theorem center_spec (N : nat) (q : Z) (a : poly) (k : nat) :
  0 < q ->
  (length (coefficients a) <= N)%nat ->
  Forall (fun c => 0 <= c < q) (coefficients a) ->
  let c := nth k a 0 in
  let c' := nth k (center N q a) 0 in
  (c' = c - q <-> 2 * c > q) /\
  (c' = c <-> 2 * c <= q) /\
  (- q < 2 * c' <= q) /\
  (q = 2 * c -> c' = c).
Proof.
  intros Hq Hlen Hrange c c'.
  assert (Hc : 0 <= c < q).
  { unfold c. rewrite <- nth_coefficients.
    destruct (Nat.lt_ge_cases k (length (coefficients a))) as [Hk|Hk].
    - rewrite Forall_forall in Hrange. apply Hrange. apply nth_In. assumption.
    - rewrite nth_overflow by assumption. lia. }
  assert (Hc' : c' = center_coeff q c).
  { unfold c', center. rewrite nth_R.
    destruct (Nat.lt_ge_cases k N) as [Hk|Hk].
    - rewrite nth_map_lt by (rewrite length_firstn_pad; assumption).
      rewrite nth_firstn. destruct (Nat.ltb_spec k N); [|lia].
      rewrite nth_pad, nth_coefficients. reflexivity.
    - rewrite nth_overflow by (rewrite length_map, length_firstn_pad; assumption).
      assert (c = 0).
      { unfold c. rewrite <- nth_coefficients. apply nth_overflow. lia. }
      replace c with 0 by auto. unfold center_coeff.
      destruct (Z.gtb_spec 0 (q / 2)); [|reflexivity].
      pose proof (Z.div_pos q 2). lia. }
  rewrite Hc'. unfold center_coeff.
  pose proof (Z.div_mod q 2 ltac:(lia)) as Hdiv.
  pose proof (Z.mod_pos_bound q 2 ltac:(lia)) as Hmod.
  destruct (Z.gtb_spec c (q / 2)); repeat split; intros; lia.
Qed.

Lemma center_spec_witness :
  let c := nth 1 [3; 16; 17] 0 in
  let c' := nth 1 (center 11 32 [3; 16; 17]) 0 in
  (c' = c - 32 <-> 2 * c > 32) /\
  (c' = c <-> 2 * c <= 32) /\
  (- 32 < 2 * c' <= 32) /\
  (32 = 2 * c -> c' = c).
Proof.
  apply (@center_spec 11 32 [3; 16; 17] 1).
  - lia.
  - simpl. lia.
  - repeat constructor; lia.
Defined.

(** ** Decryption never raises *)

(** C9: for positive [N], [p] and [q], [decrypt] returns a polynomial for
    every ciphertext and every private key, whether or not the key fits,
    and the coefficients of what it returns lie in [0, p). *)
Theorem decrypt_total (N : nat) (p q : Z) (c f fp_inv : poly) :
  N <> 0%nat -> 0 < p -> 0 < q ->
  exists m,
    decrypt N p q c (f, fp_inv) = Ok m /\
    Forall (fun x => 0 <= x < p) (coefficients m) /\
    (length (coefficients m) <= N)%nat.
Proof.
  intros HN Hp Hq. unfold decrypt.
  destruct (@poly_mult_mod_ok N HN p q f c q ltac:(lia) (or_intror eq_refl))
    as (a & Ha & _).
  rewrite Ha. simpl. unfold poly_mod_p.
  rewrite poly_mod_ok by lia. simpl.
  destruct (@poly_mult_mod_ok N HN p q fp_inv
              (R (reduced_coeffs N p (center N q a))) p ltac:(lia) (or_introl eq_refl))
    as (m & Hm & Hlen & Hnorm & Hrange & _).
  exists m. unfold coefficients. rewrite Hnorm. auto.
Qed.

Lemma decrypt_total_witness :
  exists m,
    decrypt 11 3 32 [19; 26; 20; 5] ([1; 1; 0; -1], [2; 0; 1]) = Ok m /\
    Forall (fun x => 0 <= x < 3) (coefficients m) /\
    (length (coefficients m) <= 11)%nat.
Proof. apply decrypt_total; [discriminate | lia | lia]. Defined.

(** ** Coefficient reduction truncates *)

Lemma act_x_pow (n : nat) (v : nat -> Z) (k : nat) :
  act (repeat 0 n ++ [1]) v k = v (k + n)%nat.
Proof.
  revert v k. induction n as [|n IH]; intros v k.
  - cbn [repeat app act]. rewrite Nat.add_0_r. lia.
  - cbn [repeat app act]. rewrite IH. unfold shift.
    replace (S (k + n)) with (k + S n)%nat by lia. lia.
Qed.

Lemma strip_x_pow (n : nat) : strip (repeat 0 n ++ [1]) = repeat 0 n ++ [1].
Proof.
  apply strip_fixed. right. rewrite last_last. discriminate.
Qed.

(** C10: for [N > 0] and moduli above 1, [poly_mod_q] and [poly_mod_p]
    return the polynomial whose coefficient at an index below [N] is the
    non-negative residue of the argument's coefficient there (0 where the
    argument is shorter) and whose coefficients from index [N] on are 0:
    what lies at index [N] or above is dropped, not folded.  So [x^N],
    which is congruent to 1, is sent to 0, which is not. *)
Theorem poly_mod_truncates (N : nat) (p q : Z) :
  N <> 0%nat -> 1 < p -> 1 < q ->
  (forall f : poly,
      exists gq gp,
        poly_mod_q N q f = Ok gq /\ poly_mod_p N p f = Ok gp /\
        (forall k, nth k gq 0 = if (k <? N)%nat then nth k f 0 mod q else 0) /\
        (forall k, nth k gp 0 = if (k <? N)%nat then nth k f 0 mod p else 0) /\
        Forall (fun c => 0 <= c < q) (coefficients gq) /\
        Forall (fun c => 0 <= c < p) (coefficients gp)) /\
  (exists f gq gp,
      (N < length (coefficients f))%nat /\
      poly_mod_q N q f = Ok gq /\ poly_mod_p N p f = Ok gp /\
      ~ congruent N q gq f /\ ~ congruent N p gp f).
Proof.
  intros HN Hp Hq. split.
  - intros f. exists (R (reduced_coeffs N q f)), (R (reduced_coeffs N p f)).
    unfold poly_mod_q, poly_mod_p. rewrite !poly_mod_ok by lia.
    repeat split.
    + intros k. rewrite nth_R. apply nth_reduced_coeffs.
    + intros k. rewrite nth_R. apply nth_reduced_coeffs.
    + rewrite coefficients_R. apply Forall_strip, reduced_coeffs_range. lia.
    + rewrite coefficients_R. apply Forall_strip, reduced_coeffs_range. lia.
  - assert (Hzero : forall m, m <> 0 ->
              R (reduced_coeffs N m (repeat 0 N ++ [1])) = []).
    { intros m Hm. apply strip_nil_iff. apply Forall_forall. intros x Hx.
      destruct (In_nth _ _ 0 Hx) as (k & Hk & <-).
      rewrite nth_reduced_coeffs.
      destruct (Nat.ltb_spec k N) as [HkN|HkN]; [|reflexivity].
      rewrite app_nth1 by (rewrite repeat_length; assumption).
      rewrite nth_repeat_zero. apply Zmod_0_l. }
    assert (Hnot : forall m, 1 < m -> ~ congruent N m [] (repeat 0 N ++ [1])).
    { intros m Hm Hc. apply (congruent_ring_cong m [] (repeat 0 N ++ [1]) HN) in Hc.
      specialize (Hc (delta N) 0%nat (periodic_delta N)).
      rewrite act_x_pow in Hc. simpl in Hc. unfold delta in Hc.
      rewrite Nat.Div0.mod_same in Hc. simpl in Hc.
      destruct Hc as [t Ht]. assert (Ht' : t < 0 \/ 0 <= t) by lia.
      destruct Ht'; nia. }
    exists (repeat 0 N ++ [1]), [], [].
    unfold poly_mod_q, poly_mod_p. rewrite !poly_mod_ok by lia.
    rewrite !Hzero by lia. repeat split; auto.
    unfold coefficients. rewrite strip_x_pow, length_app, repeat_length. simpl. lia.
Qed.

Lemma poly_mod_truncates_witness :
  (forall f : poly,
      exists gq gp,
        poly_mod_q 11 32 f = Ok gq /\ poly_mod_p 11 3 f = Ok gp /\
        (forall k, nth k gq 0 = if (k <? 11)%nat then nth k f 0 mod 32 else 0) /\
        (forall k, nth k gp 0 = if (k <? 11)%nat then nth k f 0 mod 3 else 0) /\
        Forall (fun c => 0 <= c < 32) (coefficients gq) /\
        Forall (fun c => 0 <= c < 3) (coefficients gp)) /\
  (exists f gq gp,
      (11 < length (coefficients f))%nat /\
      poly_mod_q 11 32 f = Ok gq /\ poly_mod_p 11 3 f = Ok gp /\
      ~ congruent 11 32 gq f /\ ~ congruent 11 3 gp f).
Proof. apply poly_mod_truncates; [discriminate | lia | lia]. Defined.

(** ** Sampling small polynomials *)

(** What [random.sample(range(n), k)] promises for [k <= n]: [k] distinct
    elements of [range(n)]. *)
Definition sample_spec (rng : Type) (sample : nat -> nat -> rng -> list nat * rng)
  : Prop :=
  forall n k s, (k <= n)%nat ->
    length (fst (sample n k s)) = k /\
    NoDup (fst (sample n k s)) /\
    Forall (fun i => (i < n)%nat) (fst (sample n k s)).

(** A polynomial of degree below [N] with [d1] coefficients 1, [d2]
    coefficients -1 and the others 0. *)
Definition small_poly (N d1 d2 : nat) (f : poly) : Prop :=
  (length (coefficients f) <= N)%nat /\
  count_occ Z.eq_dec (coefficients f) 1 = d1 /\
  count_occ Z.eq_dec (coefficients f) (-1) = d2 /\
  Forall (fun c => c = 1 \/ c = -1 \/ c = 0) (coefficients f).

Fixpoint assign_all (js : list nat) (v : Z) (coeffs : list Z) : list Z :=
  match js with
  | [] => coeffs
  | j :: js' => assign_all js' v (upd coeffs j v)
  end.

Lemma length_assign_all (js : list nat) (v : Z) (coeffs : list Z) :
  length (assign_all js v coeffs) = length coeffs.
Proof.
  revert coeffs. induction js as [|j js IH]; intros coeffs; simpl; [reflexivity|].
  rewrite IH. apply length_upd.
Qed.

Lemma assign_loop_ok (positions range : list nat) (v : Z) (coeffs : list Z) :
  Forall (fun i => (i < length positions)%nat) range ->
  Forall (fun j => (j < length coeffs)%nat) positions ->
  assign_loop positions range v coeffs
  = Ok (assign_all (map (fun i => nth i positions 0%nat) range) v coeffs).
Proof.
  intros Hrange Hpos. revert coeffs Hpos.
  induction Hrange as [|i range Hi _ IH]; intros coeffs Hpos; simpl; [reflexivity|].
  rewrite (list_get_ok 0%nat positions Hi). simpl.
  assert (Hj : (nth i positions 0 < length coeffs)%nat).
  { rewrite Forall_forall in Hpos. apply Hpos. apply nth_In. assumption. }
  rewrite (list_set_ok coeffs v Hj). simpl.
  apply IH. rewrite length_upd. assumption.
Qed.

Lemma nth_assign_all (js : list nat) (v : Z) (coeffs : list Z) (i : nat) :
  Forall (fun j => (j < length coeffs)%nat) js ->
  nth i (assign_all js v coeffs) 0
  = if in_dec Nat.eq_dec i js then v else nth i coeffs 0.
Proof.
  revert coeffs. induction js as [|j js IH]; intros coeffs Hjs; [reflexivity|].
  inversion Hjs as [|? ? Hj Hjs']; subst. cbn [assign_all].
  rewrite IH by (rewrite length_upd; assumption).
  rewrite nth_upd by assumption.
  destruct (in_dec Nat.eq_dec i js) as [Hin|Hin];
    destruct (in_dec Nat.eq_dec i (j :: js)) as [Hin'|Hin']; try reflexivity.
  - exfalso. apply Hin'. right. assumption.
  - destruct Hin' as [->|Hin']; [|contradiction].
    rewrite Nat.eqb_refl. reflexivity.
  - destruct (Nat.eqb_spec i j) as [->|_]; [|reflexivity].
    exfalso. apply Hin'. left. reflexivity.
Qed.

Lemma count_occ_upd_new (l : list Z) (j : nat) (c : Z) :
  (j < length l)%nat -> nth j l 0 <> c ->
  count_occ Z.eq_dec (upd l j c) c = S (count_occ Z.eq_dec l c).
Proof.
  revert j. induction l as [|a t IH]; intros j Hj Hn; simpl in Hj; [lia|].
  destruct j as [|j]; cbn [upd nth] in *.
  - rewrite count_occ_cons_eq by reflexivity.
    rewrite count_occ_cons_neq by assumption. reflexivity.
  - destruct (Z.eq_dec a c).
    + rewrite !(@count_occ_cons_eq _ Z.eq_dec _ a c) by assumption.
      rewrite IH by (assumption || lia). reflexivity.
    + rewrite !(@count_occ_cons_neq _ Z.eq_dec _ a c) by assumption.
      apply IH; (assumption || lia).
Qed.

Lemma count_occ_upd_other (l : list Z) (j : nat) (x c : Z) :
  (j < length l)%nat -> nth j l 0 <> c -> x <> c ->
  count_occ Z.eq_dec (upd l j x) c = count_occ Z.eq_dec l c.
Proof.
  revert j. induction l as [|a t IH]; intros j Hj Hn Hx; simpl in Hj; [lia|].
  destruct j as [|j]; cbn [upd nth] in *.
  - rewrite !count_occ_cons_neq by assumption. reflexivity.
  - destruct (Z.eq_dec a c).
    + rewrite !(@count_occ_cons_eq _ Z.eq_dec _ a c) by assumption.
      rewrite IH by (assumption || lia). reflexivity.
    + rewrite !(@count_occ_cons_neq _ Z.eq_dec _ a c) by assumption.
      apply IH; (assumption || lia).
Qed.

(** Writing [v] at distinct places that hold 0 adds one [v] per place
    and changes the count of no other non-zero value. *)
Lemma count_assign_all (js : list nat) (v : Z) (coeffs : list Z) :
  v <> 0 -> NoDup js ->
  Forall (fun j => (j < length coeffs)%nat /\ nth j coeffs 0 = 0) js ->
  count_occ Z.eq_dec (assign_all js v coeffs) v
  = (count_occ Z.eq_dec coeffs v + length js)%nat /\
  forall c, c <> v -> c <> 0 ->
            count_occ Z.eq_dec (assign_all js v coeffs) c = count_occ Z.eq_dec coeffs c.
Proof.
  intros Hv Hnd. revert coeffs.
  induction Hnd as [|j js Hnotin Hnd IH]; intros coeffs Hjs; simpl.
  - split; [lia | reflexivity].
  - inversion Hjs as [|? ? [Hj Hz] Hjs']; subst.
    destruct (IH (upd coeffs j v)) as [IH1 IH2].
    { apply Forall_forall. intros i Hi. rewrite Forall_forall in Hjs'.
      destruct (Hjs' i Hi) as [Hi1 Hi2]. rewrite length_upd. split; [assumption|].
      rewrite nth_upd by assumption.
      destruct (Nat.eqb_spec i j) as [->|_]; [contradiction | assumption]. }
    split.
    + rewrite IH1, count_occ_upd_new by (assumption || congruence). lia.
    + intros c Hc Hc0. rewrite IH2 by assumption.
      apply count_occ_upd_other; (assumption || congruence).
Qed.

Lemma count_occ_repeat_zero (n : nat) (c : Z) :
  c <> 0 -> count_occ Z.eq_dec (repeat 0 n) c = 0%nat.
Proof.
  intros Hc. apply count_occ_not_In. intros Hin. apply repeat_spec in Hin. congruence.
Qed.

Lemma map_nth_seq_from (pre l : list nat) :
  map (fun i => nth i (pre ++ l) 0%nat) (seq (length pre) (length l)) = l.
Proof.
  revert pre. induction l as [|a t IH]; intros pre; [reflexivity|].
  cbn [length seq map]. rewrite nth_middle. f_equal.
  specialize (IH (pre ++ [a])).
  rewrite <- app_assoc, length_app, Nat.add_1_r in IH. exact IH.
Qed.

Lemma map_nth_seq (l : list nat) :
  map (fun i => nth i l 0%nat) (seq 0 (length l)) = l.
Proof. exact (map_nth_seq_from [] l). Qed.

Lemma NoDup_app_disjoint (l1 l2 : list nat) (x : nat) :
  NoDup (l1 ++ l2) -> In x l1 -> In x l2 -> False.
Proof.
  induction l1 as [|a l1 IH]; simpl; intros Hnd H1 H2; [assumption|].
  inversion Hnd as [|? ? Hnotin Hnd']; subst.
  destruct H1 as [->|H1].
  - apply Hnotin. apply in_or_app. right. assumption.
  - apply IH; assumption.
Qed.

Section Sampling.

Variable N : nat.
Variable rng : Type.
Variable sample : nat -> nat -> rng -> list nat * rng.
Hypothesis sample_ok : sample_spec sample.

(** When [d1 + d2 <= N] the sampler returns a small polynomial. *)
Lemma random_small_poly_ok (d1 d2 : nat) (s : rng) :
  (d1 + d2 <= N)%nat ->
  exists f,
    random_small_poly N sample d1 d2 s = Ok (f, snd (sample N (d1 + d2)%nat s)) /\
    small_poly N d1 d2 f.
Proof.
  intros Hd. unfold random_small_poly, random_sample.
  destruct (Nat.ltb_spec N (d1 + d2)) as [|_]; [lia|].
  destruct (sample_ok s Hd) as (Hlen & Hnd & Hlt).
  destruct (sample N (d1 + d2) s) as [positions s'] eqn:Es. simpl in *.
  set (js1 := map (fun i => nth i positions 0%nat) (seq 0 d1)).
  set (js2 := map (fun i => nth i positions 0%nat) (seq d1 d2)).
  assert (Hjs : js1 ++ js2 = positions).
  { unfold js1, js2. rewrite <- map_app, <- seq_app, <- Hlen. apply map_nth_seq. }
  assert (Hlt1 : Forall (fun j => (j < N)%nat) js1).
  { rewrite <- Hjs in Hlt. apply Forall_app in Hlt. tauto. }
  assert (Hlt2 : Forall (fun j => (j < N)%nat) js2).
  { rewrite <- Hjs in Hlt. apply Forall_app in Hlt. tauto. }
  assert (Hnd' : NoDup (js1 ++ js2)) by (rewrite Hjs; assumption).
  rewrite assign_loop_ok; cycle 1.
  { apply Forall_forall. intros i Hi. apply in_seq in Hi. lia. }
  { rewrite repeat_length. assumption. }
  simpl. fold js1.
  rewrite assign_loop_ok; cycle 1.
  { apply Forall_forall. intros i Hi. apply in_seq in Hi. lia. }
  { rewrite length_assign_all, repeat_length. assumption. }
  simpl. fold js2.
  set (c1 := assign_all js1 1 (repeat 0 N)).
  set (c2 := assign_all js2 (-1) c1).
  exists (R c2). split; [reflexivity|].
  assert (Hn1 : forall i, nth i c1 0 = if in_dec Nat.eq_dec i js1 then 1 else 0).
  { intros i. unfold c1. rewrite nth_assign_all by (rewrite repeat_length; assumption).
    rewrite nth_repeat_zero. reflexivity. }
  assert (Hlen1 : length c1 = N).
  { unfold c1. rewrite length_assign_all. apply repeat_length. }
  assert (Hn2 : forall i, nth i c2 0 = if in_dec Nat.eq_dec i js2 then -1
                                       else if in_dec Nat.eq_dec i js1 then 1 else 0).
  { intros i. unfold c2. rewrite nth_assign_all by (rewrite Hlen1; assumption).
    rewrite Hn1. reflexivity. }
  assert (Hlen2 : length c2 = N).
  { unfold c2. rewrite length_assign_all. assumption. }
  destruct (@count_assign_all js1 1 (repeat 0 N)) as [Hc11 Hc12].
  { discriminate. }
  { apply NoDup_app_remove_r in Hnd'. assumption. }
  { apply Forall_forall. intros j Hj. rewrite Forall_forall in Hlt1.
    rewrite repeat_length, nth_repeat_zero. auto. }
  destruct (@count_assign_all js2 (-1) c1) as [Hc21 Hc22].
  { discriminate. }
  { apply NoDup_app_remove_l in Hnd'. assumption. }
  { apply Forall_forall. intros j Hj. rewrite Forall_forall in Hlt2.
    rewrite Hlen1, Hn1. split; [auto|].
    destruct (in_dec Nat.eq_dec j js1) as [Hin|_]; [|reflexivity].
    exfalso. exact (@NoDup_app_disjoint js1 js2 j Hnd' Hin Hj). }
  fold c1 in Hc11, Hc12. fold c2 in Hc21, Hc22.
  assert (Hl1 : length js1 = d1) by (unfold js1; rewrite length_map, length_seq; reflexivity).
  assert (Hl2 : length js2 = d2) by (unfold js2; rewrite length_map, length_seq; reflexivity).
  unfold small_poly. rewrite coefficients_R. unfold R. repeat split.
  - rewrite <- Hlen2. apply length_strip.
  - rewrite count_occ_strip by discriminate.
    rewrite Hc22 by discriminate. rewrite Hc11, count_occ_repeat_zero by discriminate.
    lia.
  - rewrite count_occ_strip by discriminate.
    rewrite Hc21, Hc12, count_occ_repeat_zero by discriminate. lia.
  - apply Forall_strip. apply Forall_forall. intros x Hx.
    destruct (In_nth _ _ 0 Hx) as (i & _ & <-). rewrite Hn2.
    destruct (in_dec Nat.eq_dec i js2); [auto|].
    destruct (in_dec Nat.eq_dec i js1); auto.
Qed.

(** Otherwise [random.sample] raises. *)
Lemma random_small_poly_raise (d1 d2 : nat) (s : rng) :
  (N < d1 + d2)%nat -> random_small_poly N sample d1 d2 s = Raise ValueError.
Proof.
  clear sample_ok.
  intros Hd. unfold random_small_poly, random_sample.
  destruct (Nat.ltb_spec N (d1 + d2)); [reflexivity | lia].
Qed.

Lemma random_small_poly_inv (d1 d2 : nat) (s s' : rng) (f : poly) :
  random_small_poly N sample d1 d2 s = Ok (f, s') ->
  (d1 + d2 <= N)%nat /\ small_poly N d1 d2 f /\ strip f = f.
Proof.
  intros H. destruct (Nat.lt_ge_cases N (d1 + d2)) as [Hlt|Hle].
  - rewrite random_small_poly_raise in H by assumption. discriminate.
  - destruct (@random_small_poly_ok d1 d2 s Hle) as (f' & Hrun & Hsmall).
    rewrite Hrun in H. inversion H; subst.
    split; [assumption|]. split; [assumption|].
    revert Hrun. unfold random_small_poly.
    destruct (random_sample sample N (d1 + d2) s) as [[ps s1]|]; simpl; [|discriminate].
    destruct (assign_loop ps (seq 0 d1) 1 (repeat 0 N)) as [l1|]; simpl; [|discriminate].
    destruct (assign_loop ps (seq d1 d2) (-1) l1); simpl; [|discriminate].
    intros E. inversion E. apply strip_idem.
Qed.

End Sampling.

(** C7: with a generator that keeps the promise of [random.sample],
    [random_small_poly d1 d2] returns, when [d1 + d2 <= N], a polynomial
    of degree below [N] with exactly [d1] coefficients 1, exactly [d2]
    coefficients -1 and all others 0; when [d1 + d2 > N] it raises
    [ValueError] and returns no polynomial. *)
Theorem random_small_poly_spec (N : nat) (rng : Type)
        (sample : nat -> nat -> rng -> list nat * rng) (d1 d2 : nat) (s : rng) :
  sample_spec sample ->
  ((d1 + d2 <= N)%nat ->
   exists f s', random_small_poly N sample d1 d2 s = Ok (f, s') /\
                small_poly N d1 d2 f) /\
  ((N < d1 + d2)%nat -> random_small_poly N sample d1 d2 s = Raise ValueError).
Proof.
  intros Hs. split.
  - intros Hd. destruct (@random_small_poly_ok N rng sample Hs d1 d2 s Hd) as (f & Hf & Hsmall).
    exists f, (snd (sample N (d1 + d2)%nat s)). auto.
  - apply random_small_poly_raise.
Qed.

(** ** Inversion in the quotient ring *)

(** The coefficient of [x^k] in the product of [a] and [b] in
    [Z[x]/(x^N - 1)], for coefficient vectors of length [N]:
    [sum_{i < N} a_i * b_((k - i) mod N)]. *)
Definition cyclic_coeff (N : nat) (a b : list Z) (k : nat) : Z :=
  fold_right Z.add 0
    (map (fun i => nth i a 0 * nth ((k + N - i) mod N) b 0) (seq 0 N)).

(** [b] is an inverse of [a] in [Z_m[x]/(x^N - 1)]. *)
Definition is_inverse_mod (m : Z) (N : nat) (a b : list Z) : Prop :=
  forall k, (k < N)%nat ->
            (m | cyclic_coeff N a b k - (if (k =? 0)%nat then 1 else 0)).

(** What Sage's inversion promises: when it returns, it returns an
    inverse.  Nothing is said about when it raises. *)
Definition inverse_spec (quotient_inverse : Z -> nat -> list Z -> result (list Z))
  : Prop :=
  forall m N a b, quotient_inverse m N a = Ok b -> is_inverse_mod m N a b.

(** The class of [a] is a unit of [Z_m[x]/(x^N - 1)]. *)
Definition is_unit (m : Z) (N : nat) (a : list Z) : Prop :=
  exists b, is_inverse_mod m N a b.

Lemma sum_map_zero (f : nat -> Z) (l : list nat) :
  (forall i, f i = 0) -> fold_right Z.add 0 (map f l) = 0.
Proof.
  intros H. induction l as [|i l IH]; simpl; [reflexivity|]. rewrite H, IH. lia.
Qed.

Lemma act_as_sum (a : list Z) (w : nat -> Z) (k n : nat) :
  (length a <= n)%nat ->
  act a w k = fold_right Z.add 0 (map (fun i => nth i a 0 * w (k + i)%nat) (seq 0 n)).
Proof.
  revert w n. induction a as [|x a IH]; intros w n Hn.
  - simpl. symmetry. apply sum_map_zero. intros i. destruct i; reflexivity.
  - destruct n as [|n]; simpl in Hn; [lia|].
    cbn [act seq map fold_right nth]. rewrite Nat.add_0_r. f_equal.
    rewrite (IH (shift w) n) by lia.
    rewrite <- seq_shift, map_map. f_equal. apply map_ext. intros i.
    cbn [nth]. unfold shift. f_equal. f_equal. lia.
Qed.

Lemma mod_window (N j i : nat) :
  (j < N)%nat -> (i < N)%nat ->
  ((N - j + i + (j + N - i) mod N) mod N = 0)%nat.
Proof.
  intros Hj Hi.
  pose proof (Nat.div_mod_eq (j + N - i) N) as Hdiv.
  pose proof (Nat.mod_upper_bound (j + N - i) N ltac:(lia)) as Hlt.
  set (d := ((j + N - i) / N)%nat) in *. set (t := ((j + N - i) mod N)%nat) in *.
  assert (Hd : (d <= 1)%nat) by nia.
  replace (N - j + i + t)%nat with ((2 - d) * N)%nat by nia.
  apply Nat.Div0.mod_mul.
Qed.

(** The action of [b] on [delta N], read at any place. *)
Lemma act_delta_at (N : nat) (b : list Z) (j i : nat) :
  (length b <= N)%nat -> (j < N)%nat -> (i < N)%nat ->
  act b (delta N) (N - j + i)%nat = nth ((j + N - i) mod N) b 0.
Proof.
  intros Hb Hj Hi. apply act_indicator. intros i' Hi'.
  pose proof (mod_window Hj Hi) as Hw.
  pose proof (Nat.mod_upper_bound (j + N - i) N ltac:(lia)) as Ht.
  set (t := ((j + N - i) mod N)%nat) in *. set (u := (N - j + i)%nat) in *.
  unfold delta.
  destruct (Nat.eqb_spec i' t) as [->|Hne].
  - rewrite Hw. reflexivity.
  - destruct (Nat.eqb_spec ((u + i') mod N) 0) as [Hz|_]; [|reflexivity].
    exfalso.
    apply Nat.Div0.mod_divides in Hz. destruct Hz as [c1 Hc1].
    apply Nat.Div0.mod_divides in Hw. destruct Hw as [c2 Hc2].
    assert (Hcases : (c1 < c2 \/ c1 = c2 \/ c2 < c1)%nat) by lia.
    destruct Hcases as [H|[H|H]]; nia.
Qed.

(** The folded product has the coefficients of the cyclic convolution. *)
Lemma act_mul_delta (N : nat) (a b : list Z) (j : nat) :
  (length a <= N)%nat -> (length b <= N)%nat -> (j < N)%nat ->
  act a (act b (delta N)) (N - j) = cyclic_coeff N a b j.
Proof.
  intros Ha Hb Hj. rewrite (@act_as_sum a _ _ N Ha). unfold cyclic_coeff.
  f_equal. apply map_ext_in. intros i Hi. apply in_seq in Hi.
  f_equal. apply act_delta_at; lia.
Qed.

Lemma nth_reduce_mul (N : nat) (a b : list Z) (g : poly) (j : nat) :
  N <> 0%nat -> (length a <= N)%nat -> (length b <= N)%nat ->
  poly_reduce N (poly_mul a b) = Ok g ->
  nth j g 0 = if (j <? N)%nat then cyclic_coeff N a b j else 0.
Proof.
  intros HN Ha Hb Hg.
  destruct (poly_reduce_ok HN (poly_mul a b)) as (g' & Hg' & Hlen & _ & Hact).
  rewrite Hg in Hg'. inversion Hg'; subst g'.
  destruct (Nat.ltb_spec j N) as [Hj|Hj].
  - rewrite <- (act_delta g Hlen Hj), (Hact _ _ (periodic_delta N)).
    unfold poly_mul, R. rewrite act_strip, act_mul. apply act_mul_delta; assumption.
  - apply nth_overflow. lia.
Qed.

(** An inverse, said on coefficients, is an inverse for the congruence. *)
Lemma is_inverse_ring_cong (N : nat) (m : Z) (a b : list Z) :
  N <> 0%nat -> (length a <= N)%nat -> (length b <= N)%nat ->
  (is_inverse_mod m N a b <-> ring_cong N m (mul_coeffs a b) [1]).
Proof.
  intros HN Ha Hb.
  destruct (poly_reduce_ok HN (poly_mul a b)) as (g & Hg & Hlen & _ & Hact).
  assert (Hact' : forall v k, periodic N v -> act g v k = act (mul_coeffs a b) v k).
  { intros v k Hv. rewrite (Hact v k Hv). unfold poly_mul, R. apply act_strip. }
  assert (Hone : forall k, nth k [1] 0 = if (k =? 0)%nat then 1 else 0).
  { intros [|[|k]]; reflexivity. }
  split.
  - intros Hinv v k Hv. rewrite <- (Hact' v k Hv).
    apply act_cong_coeffs. intros i.
    rewrite (@nth_reduce_mul N a b g i HN Ha Hb Hg), Hone.
    destruct (Nat.ltb_spec i N) as [Hi|Hi].
    + apply Hinv. assumption.
    + destruct (Nat.eqb_spec i 0); [lia|]. apply Z.divide_0_r.
  - intros Hc k Hk.
    assert (H := @ring_cong_coeffs N m g [1] k Hlen ltac:(simpl; lia)).
    rewrite (@nth_reduce_mul N a b g k HN Ha Hb Hg), Hone in H.
    destruct (Nat.ltb_spec k N); [|lia]. apply H.
    intros v j Hv. rewrite (Hact' v j Hv). apply Hc. assumption.
Qed.

Lemma cyclic_coeff_ext (N : nat) (a a' b b' : list Z) (k : nat) :
  (forall i, (i < N)%nat -> nth i a 0 = nth i a' 0) ->
  (forall i, (i < N)%nat -> nth i b 0 = nth i b' 0) ->
  cyclic_coeff N a b k = cyclic_coeff N a' b' k.
Proof.
  intros Ha Hb. unfold cyclic_coeff. f_equal. apply map_ext_in.
  intros i Hi. apply in_seq in Hi. rewrite Ha by lia.
  rewrite Hb by (apply Nat.mod_upper_bound; lia). reflexivity.
Qed.

Lemma poly_mult_mod_eq (N : nat) (p q : Z) (a b : poly) (m : Z) :
  m <> 0 -> m = p \/ m = q ->
  poly_mult_mod N p q a b m
  = (red <- poly_reduce N (poly_mul a b) ;; Ok (R (reduced_coeffs N m red))).
Proof.
  intros Hm Hpq. unfold poly_mult_mod.
  destruct (poly_reduce N (poly_mul a b)) as [red|e]; simpl; [|reflexivity].
  destruct (Z.eqb_spec m p) as [Hp|Hp].
  - unfold poly_mod_p. rewrite <- Hp. apply poly_mod_ok. assumption.
  - destruct Hpq as [Hq|Hq]; [contradiction|].
    destruct (Z.eqb_spec m q) as [_|Hq']; [|contradiction].
    unfold poly_mod_q. rewrite <- Hq. apply poly_mod_ok. assumption.
Qed.

Lemma nth_in_range (m : Z) (l : list Z) (k : nat) :
  0 < m -> Forall (fun c => 0 <= c < m) l -> 0 <= nth k l 0 < m.
Proof.
  intros Hm Hl. destruct (Nat.lt_ge_cases k (length l)) as [Hk|Hk].
  - rewrite Forall_forall in Hl. apply Hl. apply nth_In. assumption.
  - rewrite nth_overflow by assumption. lia.
Qed.

(** A residue class modulo [m] and [x^N - 1] has one representative of
    degree below [N] with coefficients in [0, m). *)
Lemma ring_cong_unique (N : nat) (m : Z) (g h : list Z) :
  0 < m ->
  (length g <= N)%nat -> (length h <= N)%nat ->
  Forall (fun c => 0 <= c < m) g -> Forall (fun c => 0 <= c < m) h ->
  ring_cong N m g h -> strip g = strip h.
Proof.
  intros Hm Hg Hh Hrg Hrh Hc. apply strip_ext. intros k.
  apply (@cong_small_eq m); try (apply nth_in_range; assumption).
  apply (@ring_cong_coeffs N m g h k Hg Hh Hc).
Qed.

Lemma ring_cong_mul_strip (N : nat) (m : Z) (a b : list Z) :
  ring_cong N m (mul_coeffs (strip a) (strip b)) (mul_coeffs a b).
Proof.
  intros v k _. rewrite !act_mul.
  rewrite (act_ext (strip a) (act (strip b) v) (act b v))
    by (intros j; apply act_strip).
  rewrite act_strip, Z.sub_diag. apply Z.divide_0_r.
Qed.

Lemma length_firstn_le (A : Type) (n : nat) (l : list A) : (length (firstn n l) <= n)%nat.
Proof. rewrite length_firstn. lia. Qed.

(** What [inv_poly] returned, turned into a polynomial as [keygen] does,
    multiplies with [f] to the identity. *)
Lemma inverse_mult_mod (N : nat) (p q : Z) (f : poly) (inv : list Z) (m : Z) :
  N <> 0%nat -> 1 < m -> m = p \/ m = q ->
  (length (coefficients f) <= N)%nat ->
  is_inverse_mod m N (firstn N (pad N (coefficients f))) inv ->
  poly_mult_mod N p q f (R (firstn N inv)) m = Ok (R [1]).
Proof.
  intros HN Hm Hpq Hlen Hinv.
  destruct (@poly_mult_mod_ok N HN p q f (R (firstn N inv)) m ltac:(lia) Hpq)
    as (g & Hg & Hlg & Hnorm & Hrange & Hcong).
  rewrite Hg. f_equal. rewrite <- Hnorm. unfold R.
  apply (@ring_cong_unique N m); try (simpl; lia); auto.
  { apply Hrange. lia. }
  { repeat constructor; lia. }
  apply ring_cong_trans with (mul_coeffs f (R (firstn N inv))); [assumption|].
  apply ring_cong_trans with (mul_coeffs (coefficients f) (firstn N inv)).
  - apply ring_cong_trans with (mul_coeffs f (firstn N inv)).
    + intros v k _. rewrite !act_mul. unfold R.
      rewrite (act_ext f (act (strip (firstn N inv)) v) (act (firstn N inv) v))
        by (intros j; apply act_strip).
      rewrite Z.sub_diag. apply Z.divide_0_r.
    + intros v k _. rewrite !act_mul. unfold coefficients. rewrite act_strip.
      rewrite Z.sub_diag. apply Z.divide_0_r.
  - apply is_inverse_ring_cong; auto using length_firstn_le.
    intros k Hk.
    rewrite (@cyclic_coeff_ext N _ (firstn N (pad N (coefficients f))) _ inv).
    + apply Hinv. assumption.
    + intros i Hi. rewrite nth_firstn, nth_pad.
      destruct (Nat.ltb_spec i N); [reflexivity | lia].
    + intros i Hi. rewrite nth_firstn.
      destruct (Nat.ltb_spec i N); [reflexivity | lia].
Qed.

(** C2: if Sage's inversion returns inverses whenever it returns, then for
    a polynomial [f] of degree below [N] and a modulus [m > 1] that is [p]
    or [q], a successful [inv_poly f m] gives a polynomial whose product
    with [f] under [poly_mult_mod] is the identity polynomial. *)
Theorem inverse_correct (N : nat) (p q : Z)
        (quotient_inverse : Z -> nat -> list Z -> result (list Z))
        (f : poly) (m : Z) (inverse : list Z) :
  inverse_spec quotient_inverse ->
  N <> 0%nat -> 1 < m -> m = p \/ m = q ->
  (length (coefficients f) <= N)%nat ->
  inv_poly N quotient_inverse f m = Some inverse ->
  poly_mult_mod N p q f (R (firstn N inverse)) m = Ok (R [1]).
Proof.
  intros Hspec HN Hm Hpq Hlen Hinv. apply inverse_mult_mod; auto.
  apply Hspec. unfold inv_poly in Hinv.
  destruct (quotient_inverse m N (firstn N (pad N (coefficients f)))); congruence.
Qed.

Lemma zero_not_unit (N : nat) (m : Z) (a : list Z) :
  N <> 0%nat -> 1 < m -> Forall (fun c => c = 0) a -> ~ is_unit m N a.
Proof.
  intros HN Hm Ha [b Hb].
  assert (H0 : (0 < N)%nat) by lia. specialize (Hb 0%nat H0). simpl in Hb.
  unfold cyclic_coeff in Hb. rewrite sum_map_zero in Hb.
  - destruct Hb as [t Ht]. assert (Ht' : t < 0 \/ 0 <= t) by lia. destruct Ht'; nia.
  - intros i. rewrite (nth_all_zero i Ha). lia.
Qed.

(** C6: if Sage's inversion returns inverses whenever it returns, then
    [inv_poly] returns [None] for every polynomial of degree below [N]
    that is not a unit of [Z_m[x]/(x^N - 1)]; the zero polynomial is such
    a non-unit for every modulus above 1. *)
Theorem non_unit_rejected (N : nat)
        (quotient_inverse : Z -> nat -> list Z -> result (list Z)) (m : Z) :
  inverse_spec quotient_inverse ->
  (forall a : poly,
      (length (coefficients a) <= N)%nat ->
      ~ is_unit m N (coefficients a) ->
      inv_poly N quotient_inverse a m = None) /\
  (N <> 0%nat -> 1 < m ->
   ~ is_unit m N (coefficients (R [])) /\
   inv_poly N quotient_inverse (R []) m = None).
Proof.
  intros Hspec.
  assert (Hgen : forall a : poly,
             (length (coefficients a) <= N)%nat ->
             ~ is_unit m N (coefficients a) ->
             inv_poly N quotient_inverse a m = None).
  { intros a Hlen Hnot. unfold inv_poly.
    destruct (quotient_inverse m N (firstn N (pad N (coefficients a)))) as [b|e] eqn:E;
      [|reflexivity].
    exfalso. apply Hnot. exists b. intros k Hk.
    rewrite (@cyclic_coeff_ext N _ (firstn N (pad N (coefficients a))) _ b).
    - apply (Hspec _ _ _ _ E). assumption.
    - intros i Hi. rewrite nth_firstn, nth_pad.
      destruct (Nat.ltb_spec i N); [reflexivity | lia].
    - reflexivity. }
  split; [exact Hgen|].
  intros HN Hm.
  assert (Hz : ~ is_unit m N (coefficients (R []))).
  { apply zero_not_unit; auto. }
  split; [exact Hz|]. apply Hgen; [simpl; lia | exact Hz].
Qed.

(** ** Collaborators for concrete runs

    A generator that replays recorded draws, and an inversion that looks
    for the inverse among the powers of its argument and checks what it
    found.  Both keep the promises above, so the theorems apply to runs
    that can be evaluated. *)

Fixpoint nodupb (l : list nat) : bool :=
  match l with
  | [] => true
  | x :: t => negb (existsb (Nat.eqb x) t) && nodupb t
  end.

Definition fits (n k : nat) (l : list nat) : bool :=
  (length l =? k)%nat && forallb (fun i => (i <? n)%nat) l && nodupb l.

(** The next recorded draw if it is a possible answer of
    [random.sample(range(n), k)], the first [k] indices otherwise. *)
Definition replay_sample (n k : nat) (s : list (list nat)) : list nat * list (list nat) :=
  match s with
  | l :: s' => if fits n k l then (l, s') else (seq 0 k, s')
  | [] => (seq 0 k, [])
  end.

Lemma nodupb_NoDup (l : list nat) : nodupb l = true -> NoDup l.
Proof.
  induction l as [|x t IH]; simpl; intros H; constructor.
  - apply andb_prop in H. destruct H as [H _]. intros Hin.
    apply negb_true_iff in H.
    assert (Hex : existsb (Nat.eqb x) t = true).
    { apply existsb_exists. exists x. split; [assumption | apply Nat.eqb_refl]. }
    congruence.
  - apply IH. apply andb_prop in H. tauto.
Qed.

Lemma replay_sample_spec : sample_spec replay_sample.
Proof.
  intros n k s Hk.
  assert (Hseq : length (seq 0 k) = k /\ NoDup (seq 0 k)
                 /\ Forall (fun i => (i < n)%nat) (seq 0 k)).
  { rewrite length_seq. repeat split.
    - apply seq_NoDup.
    - apply Forall_forall. intros i Hi. apply in_seq in Hi. lia. }
  destruct s as [|l s']; simpl; [exact Hseq|].
  destruct (fits n k l) eqn:E; simpl; [|exact Hseq].
  unfold fits in E. apply andb_prop in E. destruct E as [E E3].
  apply andb_prop in E. destruct E as [E1 E2].
  repeat split.
  - apply Nat.eqb_eq. assumption.
  - apply nodupb_NoDup. assumption.
  - apply Forall_forall. intros i Hi.
    rewrite forallb_forall in E2. apply Nat.ltb_lt. apply E2. assumption.
Qed.

Definition is_inverse_modb (m : Z) (N : nat) (a b : list Z) : bool :=
  forallb (fun k => (cyclic_coeff N a b k - (if (k =? 0)%nat then 1 else 0)) mod m =? 0)
          (seq 0 N).

Definition cyclic_mul (m : Z) (N : nat) (a b : list Z) : list Z :=
  map (fun k => cyclic_coeff N a b k mod m) (seq 0 N).

Fixpoint coeffs_eqb (a b : list Z) : bool :=
  match a, b with
  | [], [] => true
  | x :: a', y :: b' => (x =? y) && coeffs_eqb a' b'
  | _, _ => false
  end.

(** The first power of [a] that is 1 has the power before it as inverse. *)
Fixpoint power_search (fuel : nat) (m : Z) (N : nat) (a prev cur : list Z)
  : option (list Z) :=
  match fuel with
  | O => None
  | S fuel' =>
      if coeffs_eqb cur (map (fun t => t mod m) (1 :: repeat 0 (N - 1)))
      then Some prev
      else power_search fuel' m N a cur (cyclic_mul m N cur a)
  end.

(** One step of Hensel lifting: [b * (2 - a * b)]. *)
Definition newton_step (m : Z) (N : nat) (a b : list Z) : list Z :=
  let ab := cyclic_mul m N a b in
  cyclic_mul m N b
    (map (fun k => ((if (k =? 0)%nat then 2 else 0) - nth k ab 0) mod m) (seq 0 N)).

(** Invert modulo 2 for an even modulus, modulo [m] for an odd one, by
    the search among the powers; lift the result; keep it only if it is an
    inverse modulo [m]. *)
Definition search_inverse (fuel : nat) (m : Z) (N : nat) (a : list Z)
  : result (list Z) :=
  if m =? 0 then Raise NotImplementedError
  else
    let base := if Z.even m then 2 else m in
    match power_search fuel base N a
                       (map (fun t => t mod base) (1 :: repeat 0 (N - 1)))
                       (map (fun t => t mod base) a) with
    | Some b0 =>
        let b := Nat.iter (Z.to_nat (Z.log2 m)) (newton_step m N a) b0 in
        if is_inverse_modb m N a b then Ok b else Raise ZeroDivisionError
    | None => Raise ZeroDivisionError
    end.

Lemma is_inverse_modb_sound (m : Z) (N : nat) (a b : list Z) :
  m <> 0 -> is_inverse_modb m N a b = true -> is_inverse_mod m N a b.
Proof.
  intros Hm H k Hk. unfold is_inverse_modb in H. rewrite forallb_forall in H.
  assert (Hin : In k (seq 0 N)) by (apply in_seq; lia).
  specialize (H k Hin). apply Z.eqb_eq in H.
  apply Z.mod_divide; assumption.
Qed.

Lemma search_inverse_spec (fuel : nat) : inverse_spec (search_inverse fuel).
Proof.
  intros m N a b H. unfold search_inverse in H.
  destruct (Z.eqb_spec m 0) as [|Hm]; [discriminate|].
  destruct (power_search fuel _ N a _ _) as [c|]; [|discriminate].
  destruct (is_inverse_modb m N a _) eqn:E; [|discriminate].
  inversion H; subst. apply is_inverse_modb_sound; assumption.
Qed.

(** The prime powers of [m], by trial division. *)
Fixpoint strip_factor (fuel : nat) (d m acc : Z) : Z * Z :=
  match fuel with
  | O => (acc, m)
  | S fuel' =>
      if m mod d =? 0 then strip_factor fuel' d (m / d) (acc * d) else (acc, m)
  end.

Fixpoint prime_powers (fuel : nat) (d m : Z) : list Z :=
  match fuel with
  | O => []
  | S fuel' =>
      if m <=? 1 then []
      else if m mod d =? 0
           then let '(pk, rest) := strip_factor fuel d m 1 in
                pk :: prime_powers fuel' (d + 1) rest
           else prime_powers fuel' (d + 1) m
  end.

(** [u] with [M1 * u = 1] modulo [M2], by search. *)
Definition unit_inverse (M1 M2 : Z) : Z :=
  match find (fun u => (M1 * u) mod M2 =? 1 mod M2)
             (map Z.of_nat (seq 0 (Z.to_nat M2))) with
  | Some u => u
  | None => 0
  end.

(** The vector that is [b1] modulo [M1] and [b2] modulo [M2]. *)
Definition crt (M1 M2 : Z) (N : nat) (b1 b2 : list Z) : list Z :=
  let u := unit_inverse M1 M2 in
  map (fun k => (nth k b1 0 + M1 * (((nth k b2 0 - nth k b1 0) * u) mod M2))
                mod (M1 * M2))
      (seq 0 N).

Fixpoint crt_all (fuel : nat) (N : nat) (a : list Z) (pks : list Z) (M : Z)
         (b : list Z) : option (list Z) :=
  match pks with
  | [] => Some b
  | pk :: rest =>
      match search_inverse fuel pk N a with
      | Ok bk => crt_all fuel N a rest (M * pk) (crt M pk N b bk)
      | Raise _ => None
      end
  end.

(** Inversion for a modulus of any shape: invert modulo each prime power
    of the modulus, combine the inverses by the Chinese remainder theorem,
    and keep the result only if it is an inverse modulo [m]. *)
Definition crt_inverse (fuel : nat) (m : Z) (N : nat) (a : list Z)
  : result (list Z) :=
  if m =? 0 then Raise NotImplementedError
  else
    match crt_all fuel N a (prime_powers (Z.to_nat (Z.abs m)) 2 (Z.abs m)) 1
                  (repeat 0 N) with
    | Some b => if is_inverse_modb m N a b then Ok b else Raise ZeroDivisionError
    | None => Raise ZeroDivisionError
    end.

Lemma crt_inverse_spec (fuel : nat) : inverse_spec (crt_inverse fuel).
Proof.
  intros m N a b H. unfold crt_inverse in H.
  destruct (Z.eqb_spec m 0) as [|Hm]; [discriminate|].
  destruct (crt_all fuel N a _ 1 (repeat 0 N)) as [c|]; [|discriminate].
  destruct (is_inverse_modb m N a c) eqn:E; [|discriminate].
  inversion H; subst. apply is_inverse_modb_sound; assumption.
Qed.

(** ** Concrete runs of sampling and inversion *)

Lemma random_small_poly_spec_witness :
  (exists f s',
      random_small_poly 11 replay_sample 4 3 [[1; 2; 4; 9; 0; 3; 5]%nat] = Ok (f, s') /\
      small_poly 11 4 3 f) /\
  random_small_poly 11 replay_sample 7 5 [[1; 2; 4; 9; 0; 3; 5]%nat] = Raise ValueError.
Proof.
  split.
  - apply (proj1 (@random_small_poly_spec 11 _ replay_sample 4 3
                    [[1; 2; 4; 9; 0; 3; 5]%nat] replay_sample_spec)).
    apply Nat.leb_le. reflexivity.
  - apply (proj2 (@random_small_poly_spec 11 _ replay_sample 7 5
                    [[1; 2; 4; 9; 0; 3; 5]%nat] replay_sample_spec)).
    apply Nat.ltb_lt. reflexivity.
Defined.

Lemma inverse_correct_witness :
  poly_mult_mod 11 3 32 [-1; 1; 1; -1; 1; -1; 0; 0; 0; 1]
                (R (firstn 11 [13; 3; 27; 25; 20; 20; 28; 12; 21; 18; 6])) 32
  = Ok (R [1]).
Proof.
  apply (@inverse_correct 11 3 32 (search_inverse 2000)
           [-1; 1; 1; -1; 1; -1; 0; 0; 0; 1] 32
           [13; 3; 27; 25; 20; 20; 28; 12; 21; 18; 6]).
  - apply search_inverse_spec.
  - discriminate.
  - reflexivity.
  - right. reflexivity.
  - apply Nat.leb_le. reflexivity.
  - vm_compute. reflexivity.
Defined.

Lemma non_unit_rejected_witness :
  (forall a : poly,
      (length (coefficients a) <= 11)%nat ->
      ~ is_unit 3 11 (coefficients a) ->
      inv_poly 11 (search_inverse 2000) a 3 = None) /\
  (11%nat <> 0%nat -> 1 < 3 ->
   ~ is_unit 3 11 (coefficients (R [])) /\
   inv_poly 11 (search_inverse 2000) (R []) 3 = None).
Proof. apply (@non_unit_rejected 11 (search_inverse 2000) 3 (search_inverse_spec 2000)). Defined.

(** ** Failures of the inversion *)

Lemma keygen_unfold (N : nat) (p q : Z) (rng : Type)
      (sample : nat -> nat -> rng -> list nat * rng)
      (quotient_inverse : Z -> nat -> list Z -> result (list Z))
      (depth : nat) (s : rng) :
  keygen N p q sample quotient_inverse (S depth) s
  = (' (f, s1) <- random_small_poly N sample (N / 3 + 1) (N / 3) s ;;
     ' (g, s2) <- random_small_poly N sample (N / 3) (N / 3) s1 ;;
     match inv_poly N quotient_inverse f p, inv_poly N quotient_inverse f q with
     | Some fp_inv, Some fq_inv =>
         h <- poly_mult_mod N p q (poly_scale p (R (firstn N fq_inv))) g q ;;
         Ok ((f, R (firstn N fp_inv)), h, s2)
     | _, _ => keygen N p q sample quotient_inverse depth s2
     end).
Proof. reflexivity. Qed.

(** [inv_poly] returns [None] exactly when the inversion raises. *)
Lemma inv_poly_none_iff (N : nat)
      (quotient_inverse : Z -> nat -> list Z -> result (list Z)) (f : poly) (m : Z) :
  inv_poly N quotient_inverse f m = None
  <-> exists e, quotient_inverse m N (firstn N (pad N (coefficients f))) = Raise e.
Proof.
  unfold inv_poly.
  destruct (quotient_inverse m N (firstn N (pad N (coefficients f)))) as [b|e].
  - split; [discriminate | intros [e He]; discriminate].
  - split; [intros _; exists e; reflexivity | reflexivity].
Qed.

(** [keygen] answers a [None] by a new attempt. *)
Lemma keygen_retry (N : nat) (p q : Z) (rng : Type)
      (sample : nat -> nat -> rng -> list nat * rng)
      (quotient_inverse : Z -> nat -> list Z -> result (list Z))
      (depth : nat) (s s1 s2 : rng) (f g : poly) :
  random_small_poly N sample (N / 3 + 1) (N / 3) s = Ok (f, s1) ->
  random_small_poly N sample (N / 3) (N / 3) s1 = Ok (g, s2) ->
  inv_poly N quotient_inverse f p = None \/ inv_poly N quotient_inverse f q = None ->
  keygen N p q sample quotient_inverse (S depth) s
  = keygen N p q sample quotient_inverse depth s2.
Proof.
  intros Hf Hg Hnone.
  rewrite keygen_unfold, Hf. cbn [bind]. rewrite Hg. cbn [bind].
  destruct Hnone as [H|H]; rewrite H; [reflexivity|].
  destruct (inv_poly N quotient_inverse f p); reflexivity.
Qed.

(** C5: [inv_poly] has no outcome for an unsupported modulus.  For every
    modulus [m > 1] that is [p] or [q], of whatever shape (prime, a power
    of two or neither), and every polynomial of degree below [N], it
    either returns [None], exactly when the inversion raises, whatever the
    exception, or (Sage returning only inverses) a polynomial whose
    product with the argument under [poly_mult_mod] is the identity; and
    [keygen] answers every [None] by a new attempt. *)
Theorem inv_poly_any_modulus (N : nat) (p q : Z) (rng : Type)
        (sample : nat -> nat -> rng -> list nat * rng)
        (quotient_inverse : Z -> nat -> list Z -> result (list Z))
        (a : poly) (m : Z) :
  inverse_spec quotient_inverse ->
  N <> 0%nat -> 1 < m -> m = p \/ m = q ->
  (length (coefficients a) <= N)%nat ->
  ((inv_poly N quotient_inverse a m = None /\
    exists e, quotient_inverse m N (firstn N (pad N (coefficients a))) = Raise e)
   \/
   (exists b, inv_poly N quotient_inverse a m = Some b /\
              poly_mult_mod N p q a (R (firstn N b)) m = Ok (R [1]))) /\
  (forall (depth : nat) (s s1 s2 : rng) (f g : poly),
      random_small_poly N sample (N / 3 + 1) (N / 3) s = Ok (f, s1) ->
      random_small_poly N sample (N / 3) (N / 3) s1 = Ok (g, s2) ->
      inv_poly N quotient_inverse f p = None \/ inv_poly N quotient_inverse f q = None ->
      keygen N p q sample quotient_inverse (S depth) s
      = keygen N p q sample quotient_inverse depth s2).
Proof.
  intros Hspec HN Hm Hpq Hlen. split.
  - destruct (inv_poly N quotient_inverse a m) as [b|] eqn:E.
    + right. exists b. split; [reflexivity|].
      apply inverse_mult_mod; auto. apply Hspec. unfold inv_poly in E.
      destruct (quotient_inverse m N (firstn N (pad N (coefficients a))));
        congruence.
    + left. split; [reflexivity|]. apply inv_poly_none_iff. exact E.
  - intros depth s s1 s2 f g. apply keygen_retry.
Qed.

Lemma inv_poly_any_modulus_witness :
  ((inv_poly 11 (crt_inverse 2000) [-1; 1; 1; -1; 1; -1; 0; 0; 0; 1] 6 = None /\
    exists e,
      crt_inverse 2000 6 11
                  (firstn 11 (pad 11 (coefficients [-1; 1; 1; -1; 1; -1; 0; 0; 0; 1])))
      = Raise e)
   \/
   (exists b,
       inv_poly 11 (crt_inverse 2000) [-1; 1; 1; -1; 1; -1; 0; 0; 0; 1] 6 = Some b /\
       poly_mult_mod 11 6 32 [-1; 1; 1; -1; 1; -1; 0; 0; 0; 1] (R (firstn 11 b)) 6
       = Ok (R [1]))) /\
  (forall (depth : nat) (s s1 s2 : list (list nat)) (f g : poly),
      random_small_poly 11 replay_sample (11 / 3 + 1) (11 / 3) s = Ok (f, s1) ->
      random_small_poly 11 replay_sample (11 / 3) (11 / 3) s1 = Ok (g, s2) ->
      inv_poly 11 (crt_inverse 2000) f 6 = None
      \/ inv_poly 11 (crt_inverse 2000) f 32 = None ->
      keygen 11 6 32 replay_sample (crt_inverse 2000) (S depth) s
      = keygen 11 6 32 replay_sample (crt_inverse 2000) depth s2).
Proof.
  apply (@inv_poly_any_modulus 11 6 32 _ replay_sample (crt_inverse 2000)
           [-1; 1; 1; -1; 1; -1; 0; 0; 0; 1] 6).
  - apply crt_inverse_spec.
  - discriminate.
  - reflexivity.
  - left. reflexivity.
  - apply Nat.leb_le. reflexivity.
Defined.

(** Counterexample to C5 as stated: the modulus 6 is neither prime nor a
    power of two, yet [inv_poly] signals nothing: for the polynomial
    [f = -1 + x + x^2 - x^3 + x^4 - x^5 + x^9] and [N = 11] it returns the
    inverse of [f] modulo 6, and [keygen] with [p = 6] returns a key at
    its first attempt. *)
Lemma composite_modulus_is_inverted :
  inv_poly 11 (crt_inverse 2000) [-1; 1; 1; -1; 1; -1; 0; 0; 0; 1] 6
  = Some [1; 3; 5; 5; 2; 2; 0; 4; 5; 4; 0] /\
  poly_mult_mod 11 6 32 [-1; 1; 1; -1; 1; -1; 0; 0; 0; 1]
                (R (firstn 11 [1; 3; 5; 5; 2; 2; 0; 4; 5; 4; 0])) 6
  = Ok (R [1]) /\
  keygen 11 6 32 replay_sample (crt_inverse 2000) 1
         [[1; 2; 4; 9; 0; 3; 5]; [3; 6; 7; 0; 1; 8]]%nat
  = Ok (([-1; 1; 1; -1; 1; -1; 0; 0; 0; 1], [1; 3; 5; 5; 2; 2; 0; 4; 5; 4]),
        [6; 20; 8; 20; 6; 4; 28; 4; 24; 4; 4], []).
Proof. repeat split; vm_compute; reflexivity. Qed.

(** ** Key generation *)

Lemma length_poly_scale (N : nat) (k : Z) (l : list Z) :
  (length (poly_scale k (R (firstn N l))) <= N)%nat.
Proof.
  unfold poly_scale, R.
  pose proof (length_strip (map (Z.mul k) (strip (firstn N l)))) as H1.
  pose proof (length_strip (firstn N l)) as H2.
  pose proof (length_firstn_le N l) as H3.
  rewrite length_map in H1. lia.
Qed.

(** C8: a run of [keygen] that returns a key pair used [d = N // 3],
    drew [f] with [d + 1] coefficients 1 and [d] coefficients -1 and [g]
    with [d] of each, and returns as public key
    [h = poly_mult_mod (p * fq_inv) g q] for the polynomial [fq_inv] that
    [inv_poly f q] returned, an inverse of [f] modulo [q]; so the
    coefficients of [h] are those of the cyclic product of [p * fq_inv]
    and [g], reduced into [0, q). *)
Theorem keygen_spec (N : nat) (p q : Z) (rng : Type)
        (sample : nat -> nat -> rng -> list nat * rng)
        (quotient_inverse : Z -> nat -> list Z -> result (list Z))
        (depth : nat) (s s' : rng) (f fp_inv h : poly) :
  sample_spec sample -> inverse_spec quotient_inverse -> 0 < q ->
  keygen N p q sample quotient_inverse depth s = Ok ((f, fp_inv), h, s') ->
  let d := (N / 3)%nat in
  exists (g : poly) (fp fq : list Z),
    small_poly N (d + 1) d f /\
    small_poly N d d g /\
    inv_poly N quotient_inverse f p = Some fp /\ fp_inv = R (firstn N fp) /\
    inv_poly N quotient_inverse f q = Some fq /\
    is_inverse_mod q N (coefficients f) (R (firstn N fq)) /\
    poly_mult_mod N p q (poly_scale p (R (firstn N fq))) g q = Ok h /\
    (forall k, nth k h 0
               = if (k <? N)%nat
                 then cyclic_coeff N (poly_scale p (R (firstn N fq))) g k mod q
                 else 0) /\
    Forall (fun c => 0 <= c < q) (coefficients h).
Proof.
  intros Hsample Hinverse Hq. revert s.
  induction depth as [|depth IH]; intros s Hrun; [discriminate|].
  rewrite keygen_unfold in Hrun.
  destruct (random_small_poly N sample (N / 3 + 1) (N / 3) s) as [[f1 s1]|] eqn:E1;
    cbn [bind] in Hrun; [|discriminate].
  destruct (random_small_poly N sample (N / 3) (N / 3) s1) as [[g s2]|] eqn:E2;
    cbn [bind] in Hrun; [|discriminate].
  destruct (inv_poly N quotient_inverse f1 p) as [fp|] eqn:Ep;
    [|exact (IH s2 Hrun)].
  destruct (inv_poly N quotient_inverse f1 q) as [fq|] eqn:Eq;
    [|exact (IH s2 Hrun)].
  destruct (poly_mult_mod N p q (poly_scale p (R (firstn N fq))) g q) as [h1|] eqn:Eh;
    cbn [bind] in Hrun; [|discriminate].
  inversion Hrun; subst f1 fp_inv h1 s2. clear Hrun IH.
  destruct (@random_small_poly_inv N rng sample Hsample _ _ _ _ _ E1) as (Hd1 & Hf & Hfn).
  destruct (@random_small_poly_inv N rng sample Hsample _ _ _ _ _ E2) as (Hd2 & Hg & Hgn).
  assert (HN : N <> 0%nat) by lia.
  assert (Hlf : (length (coefficients f) <= N)%nat) by apply Hf.
  assert (Hlg : (length g <= N)%nat).
  { rewrite <- Hgn. apply Hg. }
  intros d. exists g, fp, fq.
  split; [exact Hf|]. split; [exact Hg|].
  split; [exact Ep|]. split; [reflexivity|]. split; [exact Eq|].
  split.
  { intros k Hk.
    rewrite (@cyclic_coeff_ext N _ (firstn N (pad N (coefficients f))) _ fq).
    - unfold inv_poly in Eq.
      destruct (quotient_inverse q N (firstn N (pad N (coefficients f)))) as [b|] eqn:E;
        [|discriminate].
      inversion Eq; subst b. apply (Hinverse _ _ _ _ E). assumption.
    - intros i Hi. rewrite nth_firstn, nth_pad.
      destruct (Nat.ltb_spec i N); [reflexivity | lia].
    - intros i Hi. rewrite nth_R, nth_firstn.
      destruct (Nat.ltb_spec i N); [reflexivity | lia]. }
  split; [exact Eh|].
  rewrite poly_mult_mod_eq in Eh by (auto; lia).
  destruct (poly_reduce N (poly_mul (poly_scale p (R (firstn N fq))) g)) as [red|] eqn:Er;
    cbn [bind] in Eh; [|discriminate].
  inversion Eh; subst h. split.
  - intros k. rewrite nth_R, nth_reduced_coeffs.
    destruct (Nat.ltb_spec k N) as [Hk|Hk]; [|reflexivity].
    rewrite (@nth_reduce_mul N _ _ red k HN (length_poly_scale N p fq) Hlg Er).
    destruct (Nat.ltb_spec k N); [reflexivity | lia].
  - rewrite coefficients_R. apply Forall_strip, reduced_coeffs_range. assumption.
Qed.

Lemma keygen_spec_witness :
  let d := (11 / 3)%nat in
  exists (g : poly) (fp fq : list Z),
    small_poly 11 (d + 1) d [-1; 1; 1; -1; 1; -1; 0; 0; 0; 1] /\
    small_poly 11 d d g /\
    inv_poly 11 (search_inverse 2000) [-1; 1; 1; -1; 1; -1; 0; 0; 0; 1] 3 = Some fp /\
    [1; 0; 2; 2; 2; 2; 0; 1; 2; 1] = R (firstn 11 fp) /\
    inv_poly 11 (search_inverse 2000) [-1; 1; 1; -1; 1; -1; 0; 0; 0; 1] 32 = Some fq /\
    is_inverse_mod 32 11 (coefficients [-1; 1; 1; -1; 1; -1; 0; 0; 0; 1])
                   (R (firstn 11 fq)) /\
    poly_mult_mod 11 3 32 (poly_scale 3 (R (firstn 11 fq))) g 32
    = Ok [19; 26; 20; 26; 19; 2; 30; 2; 12; 18; 18] /\
    (forall k, nth k [19; 26; 20; 26; 19; 2; 30; 2; 12; 18; 18] 0
               = if (k <? 11)%nat
                 then cyclic_coeff 11 (poly_scale 3 (R (firstn 11 fq))) g k mod 32
                 else 0) /\
    Forall (fun c => 0 <= c < 32)
           (coefficients [19; 26; 20; 26; 19; 2; 30; 2; 12; 18; 18]).
Proof.
  apply (@keygen_spec 11 3 32 _ replay_sample (search_inverse 2000) 3
           [[1; 2; 4; 9; 0; 3; 5]; [3; 6; 7; 0; 1; 8]; [0; 1; 3; 6; 7; 9]]%nat
           [[0; 1; 3; 6; 7; 9]]%nat).
  - apply replay_sample_spec.
  - apply search_inverse_spec.
  - reflexivity.
  - vm_compute. reflexivity.
Defined.

(** ** The round trip *)

(** The noise of a ciphertext: the residue of [p * (r * g) + f * m] modulo
    [x^N - 1], which decryption must read without wrap-around. *)
Definition noise (N : nat) (p : Z) (f g r m : poly) : result poly :=
  poly_reduce N (poly_add (poly_scale p (poly_mul r g)) (poly_mul f m)).

(** The noise term as the specification writes it, [f * r * g + f * m]. *)
Definition noise_as_specified (N : nat) (f g r m : poly) : result poly :=
  poly_reduce N (poly_add (poly_mul f (poly_mul r g)) (poly_mul f m)).

(** All coefficients are below [q/2] in absolute value. *)
Definition below_half (q : Z) (t : result poly) : Prop :=
  exists e, t = Ok e /\ Forall (fun c => 2 * Z.abs c < q) (coefficients e).

Lemma center_recovers (q c x : Z) :
  0 <= c < q -> 2 * Z.abs x < q -> (q | c - x) -> center_coeff q c = x.
Proof.
  intros Hc Hx [t Ht]. unfold center_coeff.
  pose proof (Z.div_mod q 2 ltac:(lia)) as Hdiv.
  pose proof (Z.mod_pos_bound q 2 ltac:(lia)) as Hmod.
  assert (Hx' : - q < 2 * x < q) by lia.
  assert (Hcases : t = 0 \/ t = 1).
  { destruct (Z_lt_le_dec t 0).
    { assert (t * q <= (-1) * q) by (apply Z.mul_le_mono_nonneg_r; lia). lia. }
    destruct (Z_lt_le_dec 1 t).
    { assert (2 * q <= t * q) by (apply Z.mul_le_mono_nonneg_r; lia). lia. }
    lia. }
  destruct Hcases as [-> | ->]; destruct (Z.gtb_spec c (q / 2)); lia.
Qed.

Lemma act_one (v : nat -> Z) (k : nat) : act [1] v k = v k.
Proof. cbn [act]. lia. Qed.

(** [f * fi = 1] under [poly_mult_mod] makes [fi] undo [f] on periodic
    sequences, modulo [m]. *)
Lemma inverse_act (N : nat) (p q : Z) (f fi : poly) (m : Z) :
  N <> 0%nat -> m <> 0 -> m = p \/ m = q ->
  poly_mult_mod N p q f fi m = Ok (R [1]) ->
  forall w j, periodic N w -> (m | act f (act fi w) j - w j).
Proof.
  intros HN Hm Hpq Hinv w j Hw.
  destruct (@poly_mult_mod_ok N HN p q f fi m Hm Hpq) as (g & Hg & _ & _ & _ & Hc).
  rewrite Hinv in Hg. inversion Hg; subst g.
  specialize (Hc w j Hw). rewrite act_mul in Hc.
  change (R [1]) with [1] in Hc. rewrite act_one in Hc.
  replace (act f (act fi w) j - w j) with (- (w j - act f (act fi w) j)) by lia.
  apply Z.divide_opp_r. assumption.
Qed.

Lemma length_poly_add (N : nat) (a b : poly) :
  (length a <= N)%nat -> (length b <= N)%nat ->
  (length (coefficients (poly_add a b)) <= N)%nat.
Proof.
  intros Ha Hb. unfold poly_add. rewrite coefficients_R. unfold R.
  pose proof (length_strip (add_coeffs a b)) as H.
  rewrite length_add_coeffs in H. lia.
Qed.

Section RoundTrip.

Variable N : nat.
Variables p q : Z.
Hypothesis N_pos : N <> 0%nat.
Hypothesis p_pos : 0 < p.
Hypothesis q_pos : 0 < q.

Variables f g fp_inv fq_inv h r : poly.
Variable m : list Z.

Hypothesis fp_inverse : poly_mult_mod N p q f fp_inv p = Ok (R [1]).
Hypothesis fq_inverse : poly_mult_mod N p q f fq_inv q = Ok (R [1]).
Hypothesis public_key : poly_mult_mod N p q (poly_scale p fq_inv) g q = Ok h.
Hypothesis message_length : (length m <= N)%nat.
Hypothesis message_range : Forall (fun c => 0 <= c < p) m.
Hypothesis noise_ok : below_half q (noise N p f g r (R m)).

(** [f * (r * h + m)] is the noise polynomial modulo [q]. *)
Lemma noise_cong (v : nat -> Z) (k : nat) :
  periodic N v ->
  (q | act f (fun j => act r (act h v) j + act m v j) k
       - (p * act r (act g v) k + act f (act m v) k)).
Proof.
  intros Hv.
  destruct (@poly_mult_mod_ok N N_pos p q (poly_scale p fq_inv) g q
              ltac:(lia) (or_intror eq_refl)) as (h' & Hh' & _ & _ & _ & Hh).
  rewrite public_key in Hh'. inversion Hh'; subst h'. clear Hh'.
  rewrite act_lin_add.
  replace (act f (act r (act h v)) k + act f (act m v) k
           - (p * act r (act g v) k + act f (act m v) k))
    with (act f (act r (act h v)) k - p * act r (act g v) k) by lia.
  set (w := act g v).
  assert (Hw : periodic N w) by (apply periodic_act; assumption).
  (* h acts as p * fq_inv * g *)
  assert (H1 : forall j, (q | act h v j - p * act fq_inv w j)).
  { intros j. specialize (Hh v j Hv). rewrite act_mul in Hh.
    unfold poly_scale, R in Hh. rewrite act_strip, act_scale in Hh. exact Hh. }
  (* f * r * (p * fq_inv * g) = p * r * (f * fq_inv * g) *)
  assert (H2 : act f (act r (fun j => p * act fq_inv w j)) k
               = p * act r (act f (act fq_inv w)) k).
  { rewrite (act_ext f (act r (fun j => p * act fq_inv w j))
                     (fun j => p * act r (act fq_inv w) j))
      by (intros j; apply act_lin_scale).
    rewrite act_lin_scale, act_comm. reflexivity. }
  replace (act f (act r (act h v)) k - p * act r w k)
    with ((act f (act r (act h v)) k - act f (act r (fun j => p * act fq_inv w j)) k)
          + p * (act r (act f (act fq_inv w)) k - act r w k))
    by (rewrite H2; lia).
  apply Z.divide_add_r.
  - apply act_cong_seq. intros j. apply act_cong_seq. exact H1.
  - apply Z.divide_mul_r. apply act_cong_seq. intros j.
    apply (@inverse_act N p q f fq_inv q N_pos ltac:(lia) (or_intror eq_refl) fq_inverse).
    assumption.
Qed.

(** Encryption with the polynomial [r], then decryption, gives back the
    message. *)
Lemma round_trip_with (c1 c : poly) :
  poly_mult_mod N p q r h q = Ok c1 ->
  poly_mod_q N q (poly_add c1 (R m)) = Ok c ->
  decrypt N p q c (f, fp_inv) = Ok (R m).
Proof.
  intros Hc1 Hc.
  (* the ciphertext *)
  destruct (@poly_mult_mod_ok N N_pos p q r h q ltac:(lia) (or_intror eq_refl))
    as (c1' & Hc1' & Hlc1 & _ & _ & Hcong1).
  rewrite Hc1 in Hc1'. inversion Hc1'; subst c1'. clear Hc1'.
  assert (Hlm : (length (R m) <= N)%nat).
  { unfold R. pose proof (length_strip m). lia. }
  unfold poly_mod_q in Hc. rewrite poly_mod_ok in Hc by lia.
  inversion Hc; subst c. clear Hc.
  assert (Hcongc : ring_cong N q (R (reduced_coeffs N q (poly_add c1 (R m))))
                             (poly_add c1 (R m))).
  { apply reduced_coeffs_cong; [assumption | lia |].
    apply length_poly_add; assumption. }
  set (c := R (reduced_coeffs N q (poly_add c1 (R m)))) in *.
  (* a = f * c mod q *)
  unfold decrypt.
  destruct (@poly_mult_mod_ok N N_pos p q f c q ltac:(lia) (or_intror eq_refl))
    as (a & Ha & Hla & Hna & Hra & Hconga).
  rewrite Ha. cbn [bind].
  destruct noise_ok as (e & He & Hsmall).
  unfold noise in He.
  destruct (poly_reduce_ok N_pos
              (poly_add (poly_scale p (poly_mul r g)) (poly_mul f (R m))))
    as (e' & He' & Hle & Hne & Hacte).
  rewrite He in He'. inversion He'; subst e'. clear He'.
  assert (Hacte' : forall v k, periodic N v ->
             act e v k = p * act r (act g v) k + act f (act m v) k).
  { intros v k Hv. rewrite (Hacte v k Hv). unfold poly_add, poly_scale, poly_mul, R.
    rewrite act_strip, act_add, act_strip, act_scale, !act_strip, !act_mul.
    rewrite (act_ext f (act (strip m) v) (act m v)) by (intros j; apply act_strip).
    reflexivity. }
  assert (Hae : ring_cong N q a e).
  { intros v k Hv. rewrite (Hacte' v k Hv).
    replace (act a v k - (p * act r (act g v) k + act f (act m v) k))
      with ((act a v k - act f (fun j => act r (act h v) j + act m v j) k)
            + (act f (fun j => act r (act h v) j + act m v j) k
               - (p * act r (act g v) k + act f (act m v) k))) by lia.
    apply Z.divide_add_r; [|apply noise_cong; assumption].
    specialize (Hconga v k Hv). rewrite act_mul in Hconga.
    replace (act a v k - act f (fun j => act r (act h v) j + act m v j) k)
      with ((act a v k - act f (act c v) k)
            + (act f (act c v) k
               - act f (fun j => act r (act h v) j + act m v j) k)) by lia.
    apply Z.divide_add_r; [assumption|].
    apply act_cong_seq. intros j.
    specialize (Hcongc v j Hv). specialize (Hcong1 v j Hv).
    rewrite act_mul in Hcong1.
    unfold poly_add, R in Hcongc. rewrite act_strip, act_add, act_strip in Hcongc.
    replace (act c v j - (act r (act h v) j + act m v j))
      with ((act c v j - (act c1 v j + act m v j))
            + (act c1 v j - act r (act h v) j)) by lia.
    apply Z.divide_add_r; assumption. }
  (* centering recovers the noise polynomial *)
  assert (Hcenter : center N q a = e).
  { rewrite <- Hne. unfold center, R. apply strip_ext. intros k.
    destruct (Nat.lt_ge_cases k N) as [Hk|Hk].
    - rewrite nth_map_lt by (rewrite length_firstn_pad; assumption).
      rewrite nth_firstn. destruct (Nat.ltb_spec k N); [|lia].
      rewrite nth_pad, nth_coefficients.
      apply center_recovers.
      + apply nth_in_range; [lia | apply Hra; lia].
      + destruct (Nat.lt_ge_cases k (length (coefficients e))) as [Hke|Hke].
        * rewrite <- nth_coefficients. rewrite Forall_forall in Hsmall.
          apply Hsmall. apply nth_In. assumption.
        * rewrite <- nth_coefficients, nth_overflow by assumption. simpl. lia.
      + apply (@ring_cong_coeffs N q a e k Hla Hle Hae).
    - rewrite !nth_overflow; [reflexivity | lia |].
      rewrite length_map, length_firstn_pad. assumption. }
  rewrite Hcenter.
  (* b = e mod p, then fp_inv * b mod p *)
  unfold poly_mod_p. rewrite poly_mod_ok by lia. cbn [bind].
  assert (Hb : ring_cong N p (R (reduced_coeffs N p e)) e).
  { apply reduced_coeffs_cong; [assumption | lia |].
    unfold coefficients. rewrite Hne. assumption. }
  set (b := R (reduced_coeffs N p e)) in *.
  destruct (@poly_mult_mod_ok N N_pos p q fp_inv b p ltac:(lia) (or_introl eq_refl))
    as (m' & Hm' & Hlm' & Hnm' & Hrm' & Hcongm).
  rewrite Hm'. f_equal. rewrite <- Hnm'. unfold R.
  apply (@ring_cong_unique N p); auto.
  intros v k Hv. specialize (Hcongm v k Hv). rewrite act_mul in Hcongm.
  assert (Hw : periodic N (act m v)) by (apply periodic_act; assumption).
  replace (act m' v k - act m v k)
    with ((act m' v k - act fp_inv (act b v) k)
          + (act fp_inv (act b v) k - act fp_inv (act f (act m v)) k)
          + (act f (act fp_inv (act m v)) k - act m v k))
    by (rewrite (act_comm f fp_inv); lia).
  apply Z.divide_add_r; [apply Z.divide_add_r|].
  - assumption.
  - apply act_cong_seq. intros j. specialize (Hb v j Hv).
    rewrite (Hacte' v j Hv) in Hb.
    replace (act b v j - act f (act m v) j)
      with ((act b v j - (p * act r (act g v) j + act f (act m v) j))
            + p * act r (act g v) j) by lia.
    apply Z.divide_add_r; [assumption|]. apply Z.divide_factor_l.
  - apply (@inverse_act N p q f fp_inv p N_pos ltac:(lia) (or_introl eq_refl) fp_inverse).
    assumption.
Qed.

End RoundTrip.

Definition below_halfb (q : Z) (t : result poly) : bool :=
  match t with
  | Ok e => forallb (fun c => 2 * Z.abs c <? q) (coefficients e)
  | Raise _ => false
  end.

Lemma below_halfb_sound (q : Z) (t : result poly) :
  below_halfb q t = true -> below_half q t.
Proof.
  destruct t as [e|ex]; simpl; [|discriminate]. intros H. exists e. split; [reflexivity|].
  apply Forall_forall. intros c Hc. rewrite forallb_forall in H.
  apply Z.ltb_lt. apply H. assumption.
Qed.

Lemma below_halfb_complete (q : Z) (t : result poly) :
  below_half q t -> below_halfb q t = true.
Proof.
  intros (e & -> & H). simpl. apply forallb_forall. intros c Hc.
  rewrite Forall_forall in H. apply Z.ltb_lt. apply H. assumption.
Qed.

(** C1, with the noise term that decryption meets: for positive [N], [p],
    [q], a key with [f * fp_inv = 1] modulo [p], [f * fq_inv = 1] modulo
    [q] and [h = p * fq_inv * g] modulo [q], and a message of at most [N]
    coefficients in [0, p), every [r] that [encrypt] draws for which the
    residue of [p * r * g + f * m] modulo [x^N - 1] has all coefficients
    below [q/2] in absolute value gives a ciphertext that [decrypt] turns
    back into the message. *)
Theorem round_trip (N : nat) (p q : Z) (rng : Type)
        (sample : nat -> nat -> rng -> list nat * rng)
        (f g fp_inv fq_inv h r : poly) (m : list Z) (s s' : rng) :
  N <> 0%nat -> 0 < p -> 0 < q ->
  poly_mult_mod N p q f fp_inv p = Ok (R [1]) ->
  poly_mult_mod N p q f fq_inv q = Ok (R [1]) ->
  poly_mult_mod N p q (poly_scale p fq_inv) g q = Ok h ->
  (length m <= N)%nat ->
  Forall (fun c => 0 <= c < p) m ->
  random_small_poly N sample (N / 3) (N / 3) s = Ok (r, s') ->
  below_half q (noise N p f g r (R m)) ->
  exists c,
    encrypt N p q sample (Coeffs m) h s = Ok (c, s') /\
    decrypt N p q c (f, fp_inv) = Ok (R m).
Proof.
  intros HN Hp Hq Hfp Hfq Hh Hlen Hrange Hr Hnoise.
  unfold encrypt. cbn [message_coeffs bind]. rewrite Hr. cbn [bind].
  destruct (@poly_mult_mod_ok N HN p q r h q ltac:(lia) (or_intror eq_refl))
    as (c1 & Hc1 & _).
  rewrite Hc1. cbn [bind].
  unfold poly_mod_q at 1. rewrite poly_mod_ok by lia. cbn [bind].
  eexists. split; [reflexivity|].
  apply (@round_trip_with N p q HN Hp Hq f g fp_inv fq_inv h r m
           Hfp Hfq Hh Hlen Hrange Hnoise c1); [assumption|].
  unfold poly_mod_q. apply poly_mod_ok. lia.
Qed.

(** A run with the default parameters [N = 11], [p = 3], [q = 32]. *)
Definition demo_f : poly := [-1; 1; 1; -1; 1; -1; 0; 0; 0; 1].
Definition demo_g : poly := [-1; -1; 0; 1; 0; 0; 1; 1; -1].
Definition demo_fp_inv : poly := [1; 0; 2; 2; 2; 2; 0; 1; 2; 1].
Definition demo_fq_inv : poly := [13; 3; 27; 25; 20; 20; 28; 12; 21; 18; 6].
Definition demo_h : poly := [19; 26; 20; 26; 19; 2; 30; 2; 12; 18; 18].
Definition demo_draws : list (list nat) :=
  [[1; 2; 4; 9; 0; 3; 5]; [3; 6; 7; 0; 1; 8]]%nat.

Lemma round_trip_witness :
  exists c,
    encrypt 11 3 32 replay_sample (Coeffs [1; 0; 1; 1; 0; 0; 1; 0; 1; 0; 0]) demo_h
            [[9; 4; 5; 0; 6; 3]%nat] = Ok (c, []) /\
    decrypt 11 3 32 c (demo_f, demo_fp_inv) = Ok (R [1; 0; 1; 1; 0; 0; 1; 0; 1; 0; 0]).
Proof.
  apply (@round_trip 11 3 32 _ replay_sample demo_f demo_g demo_fp_inv demo_fq_inv
           demo_h [-1; 0; 0; -1; 1; 1; -1; 0; 0; 1]
           [1; 0; 1; 1; 0; 0; 1; 0; 1; 0; 0] [[9; 4; 5; 0; 6; 3]%nat] []).
  - discriminate.
  - reflexivity.
  - reflexivity.
  - vm_compute. reflexivity.
  - vm_compute. reflexivity.
  - vm_compute. reflexivity.
  - apply Nat.leb_le. reflexivity.
  - repeat (apply Forall_cons; [lia|]). apply Forall_nil.
  - vm_compute. reflexivity.
  - apply below_halfb_sound. vm_compute. reflexivity.
Defined.

(** Counterexample to C1 as stated, with the noise term
    [f * r * g + f * m]: the key that [keygen] returns from the recorded
    draws, the message [0 1 2 0 1 2 1 2 2 1 2] and the drawn [r] keep that
    term below [q/2 = 16], and decryption returns another polynomial. *)
Lemma round_trip_fails_with_specified_noise :
  keygen 11 3 32 replay_sample (search_inverse 2000) 3
         (demo_draws ++ [[0; 1; 3; 6; 7; 9]%nat])
  = Ok ((demo_f, demo_fp_inv), demo_h, [[0; 1; 3; 6; 7; 9]%nat]) /\
  poly_mult_mod 11 3 32 demo_f demo_fp_inv 3 = Ok (R [1]) /\
  poly_mult_mod 11 3 32 demo_f demo_fq_inv 32 = Ok (R [1]) /\
  poly_mult_mod 11 3 32 (poly_scale 3 demo_fq_inv) demo_g 32 = Ok demo_h /\
  random_small_poly 11 replay_sample 3 3 [[0; 1; 3; 6; 7; 9]%nat]
  = Ok ([1; 1; 0; 1; 0; 0; -1; -1; 0; -1], []) /\
  below_half 32 (noise_as_specified 11 demo_f demo_g [1; 1; 0; 1; 0; 0; -1; -1; 0; -1]
                                    (R [0; 1; 2; 0; 1; 2; 1; 2; 2; 1; 2])) /\
  encrypt 11 3 32 replay_sample (Coeffs [0; 1; 2; 0; 1; 2; 1; 2; 2; 1; 2]) demo_h
          [[0; 1; 3; 6; 7; 9]%nat]
  = Ok ([8; 6; 15; 17; 12; 5; 10; 22; 18; 28; 1], []) /\
  decrypt 11 3 32 [8; 6; 15; 17; 12; 5; 10; 22; 18; 28; 1] (demo_f, demo_fp_inv)
  = Ok [2; 1; 0; 2; 2; 2; 2; 2; 1; 0; 1] /\
  [2; 1; 0; 2; 2; 2; 2; 2; 1; 0; 1] <> R [0; 1; 2; 0; 1; 2; 1; 2; 2; 1; 2] /\
  below_halfb 32 (noise 11 3 demo_f demo_g [1; 1; 0; 1; 0; 0; -1; -1; 0; -1]
                        (R [0; 1; 2; 0; 1; 2; 1; 2; 2; 1; 2])) = false.
Proof.
  repeat split; try (vm_compute; reflexivity).
  - apply below_halfb_sound. vm_compute. reflexivity.
  - vm_compute. discriminate.
Qed.

(** * Further properties of the class *)

(** ** Reduction modulo [x^N - 1] *)

Lemma divide_zero_eq (x y : Z) : (0 | x - y) -> x = y.
Proof. intros H. apply Z.divide_0_l in H. lia. Qed.

(** Two normalised lists no longer than [n] that act alike on periodic
    sequences are equal. *)
Lemma periodic_act_eq (n : nat) (a b : list Z) :
  (length a <= n)%nat -> (length b <= n)%nat ->
  (forall v k, periodic n v -> act a v k = act b v k) ->
  strip a = strip b.
Proof.
  intros Ha Hb H. apply strip_ext. intros j. apply divide_zero_eq.
  apply (@ring_cong_coeffs n 0 a b j Ha Hb).
  intros v k Hv. rewrite (H v k Hv), Z.sub_diag. apply Z.divide_0_r.
Qed.

Lemma poly_reduce_ext (N : nat) (f f' : poly) :
  N <> 0%nat ->
  (forall v k, periodic N v -> act f v k = act f' v k) ->
  poly_reduce N f = poly_reduce N f'.
Proof.
  intros HN H.
  destruct (poly_reduce_ok HN f) as (g & Hg & Hl & Hn & Ha).
  destruct (poly_reduce_ok HN f') as (g' & Hg' & Hl' & Hn' & Ha').
  rewrite Hg, Hg'. f_equal. rewrite <- Hn, <- Hn'.
  apply (@periodic_act_eq N); auto.
  intros v k Hv. rewrite (Ha v k Hv), (Ha' v k Hv). apply H. assumption.
Qed.

Lemma delta_fold (N k i : nat) :
  (k < N)%nat ->
  delta N (N - k + i)%nat = if (i mod N =? k)%nat then 1 else 0.
Proof.
  intros Hk. unfold delta.
  pose proof (Nat.div_mod_eq i N) as Hdiv.
  pose proof (Nat.mod_upper_bound i N ltac:(lia)) as Hr.
  set (r := (i mod N)%nat) in *. set (c := (i / N)%nat) in *.
  replace (N - k + i)%nat with ((N - k + r) + c * N)%nat by lia.
  rewrite Nat.Div0.mod_add.
  destruct (Nat.eqb_spec r k) as [->|Hne].
  - replace (N - k + k)%nat with N by lia. rewrite Nat.Div0.mod_same. reflexivity.
  - destruct (Nat.lt_ge_cases r k).
    + rewrite Nat.mod_small by lia.
      destruct (Nat.eqb_spec (N - k + r) 0); [lia | reflexivity].
    + replace (N - k + r)%nat with ((r - k) + 1 * N)%nat by lia.
      rewrite Nat.Div0.mod_add, Nat.mod_small by lia.
      destruct (Nat.eqb_spec (r - k) 0); [lia | reflexivity].
Qed.

(** X1: for [N > 0], [poly_reduce] never raises; it returns a polynomial
    of degree below [N] whose coefficient at [k < N] is the sum of the
    argument's coefficients at the indices congruent to [k] modulo [N]. *)
Theorem poly_reduce_folds (N : nat) (f : poly) :
  N <> 0%nat ->
  exists g,
    poly_reduce N f = Ok g /\
    (length (coefficients g) <= N)%nat /\
    forall k, (k < N)%nat ->
      nth k g 0
      = fold_right Z.add 0
          (map (fun i => if (i mod N =? k)%nat then nth i f 0 else 0)
               (seq 0 (length f))).
Proof.
  intros HN. destruct (poly_reduce_ok HN f) as (g & Hg & Hl & Hn & Ha).
  exists g. split; [assumption|]. split.
  - unfold coefficients. rewrite Hn. assumption.
  - intros k Hk.
    rewrite <- (act_delta g Hl Hk), (Ha _ _ (periodic_delta N)).
    rewrite <- (act_strip f).
    rewrite (@act_as_sum (strip f) _ _ (length f) (length_strip f)).
    f_equal. apply map_ext. intros i. rewrite nth_strip, delta_fold by assumption.
    destruct (i mod N =? k)%nat; lia.
Qed.

Lemma poly_reduce_folds_witness :
  exists g,
    poly_reduce 3 [1; 2; 3; 4; 5; 6; 7] = Ok g /\
    (length (coefficients g) <= 3)%nat /\
    forall k, (k < 3)%nat ->
      nth k g 0
      = fold_right Z.add 0
          (map (fun i => if (i mod 3 =? k)%nat then nth i [1; 2; 3; 4; 5; 6; 7] 0 else 0)
               (seq 0 (length [1; 2; 3; 4; 5; 6; 7]%Z))).
Proof. apply poly_reduce_folds. discriminate. Defined.

(** X2: for [N > 0], [poly_reduce] leaves a polynomial of degree below
    [N] as it is, and reducing twice is reducing once. *)
Theorem poly_reduce_fixes_reduced (N : nat) (f : poly) :
  N <> 0%nat ->
  ((length (coefficients f) <= N)%nat -> poly_reduce N f = Ok (R f)) /\
  (forall g, poly_reduce N f = Ok g -> poly_reduce N g = Ok g).
Proof.
  intros HN.
  assert (Hfix : forall f0 : poly,
             (length (coefficients f0) <= N)%nat -> poly_reduce N f0 = Ok (R f0)).
  { intros f0 Hlen.
    destruct (poly_reduce_ok HN f0) as (g & Hg & Hl & Hn & Ha).
    rewrite Hg. f_equal. rewrite <- Hn. unfold R.
    rewrite <- (strip_idem f0). apply (@periodic_act_eq N); auto.
    intros v k Hv. rewrite (Ha v k Hv), act_strip. reflexivity. }
  split; [apply Hfix|].
  intros g Hg.
  destruct (poly_reduce_ok HN f) as (g' & Hg' & Hl & Hn & _).
  rewrite Hg in Hg'. inversion Hg'; subst g'.
  rewrite Hfix by (unfold coefficients; rewrite Hn; assumption).
  unfold R. rewrite Hn. reflexivity.
Qed.

Lemma poly_reduce_fixes_reduced_witness :
  ((length (coefficients [4; 0; -2]%Z) <= 11)%nat ->
   poly_reduce 11 [4; 0; -2] = Ok (R [4; 0; -2])) /\
  (forall g, poly_reduce 11 [4; 0; -2] = Ok g -> poly_reduce 11 g = Ok g).
Proof. apply poly_reduce_fixes_reduced. discriminate. Defined.

(** X3: with [N = 0] the index [i % N] cannot be computed: [poly_reduce]
    raises [ZeroDivisionError] on every polynomial but zero, and so does
    [poly_mult_mod] on every pair with a product other than zero. *)
Theorem poly_reduce_zero_length (p q : Z) (f a b : poly) (m : Z) :
  (coefficients f <> [] -> poly_reduce 0 f = Raise ZeroDivisionError) /\
  (coefficients f = [] -> poly_reduce 0 f = Ok (R [])) /\
  (coefficients (poly_mul a b) <> [] ->
   poly_mult_mod 0 p q a b m = Raise ZeroDivisionError).
Proof.
  assert (H : forall f0 : poly,
             coefficients f0 <> [] -> poly_reduce 0 f0 = Raise ZeroDivisionError).
  { intros f0 Hf. unfold poly_reduce.
    destruct (coefficients f0) as [|c t]; [congruence | reflexivity]. }
  split; [apply H|]. split.
  - intros Hf. unfold poly_reduce. rewrite Hf. reflexivity.
  - intros Hab. unfold poly_mult_mod. rewrite H by assumption. reflexivity.
Qed.

(** ** Coefficient reduction *)

(** X4: [poly_mod_q] and [poly_mod_p] are idempotent for a modulus other
    than 0, and leave a polynomial of degree below [N] with coefficients
    in [0, modulus) as it is. *)
Theorem poly_mod_idempotent (N : nat) (p q : Z) (f : poly) :
  p <> 0 -> q <> 0 ->
  (forall g, poly_mod_q N q f = Ok g -> poly_mod_q N q g = Ok g) /\
  (forall g, poly_mod_p N p f = Ok g -> poly_mod_p N p g = Ok g) /\
  ((length (coefficients f) <= N)%nat ->
   Forall (fun c => 0 <= c < q) (coefficients f) -> poly_mod_q N q f = Ok (R f)) /\
  ((length (coefficients f) <= N)%nat ->
   Forall (fun c => 0 <= c < p) (coefficients f) -> poly_mod_p N p f = Ok (R f)).
Proof.
  intros Hp Hq.
  assert (Hidem : forall m g, m <> 0 -> poly_mod N m f = Ok g -> poly_mod N m g = Ok g).
  { intros m g Hm Hg. rewrite poly_mod_ok in Hg by assumption.
    inversion Hg; subst g. rewrite poly_mod_ok by assumption. f_equal.
    unfold R. apply strip_ext. intros k. rewrite !nth_reduced_coeffs, nth_strip.
    rewrite nth_reduced_coeffs.
    destruct (Nat.ltb_spec k N); [|reflexivity]. apply Z.mod_mod. assumption. }
  assert (Hfix : forall m, m <> 0 -> (length (coefficients f) <= N)%nat ->
                           Forall (fun c => 0 <= c < m) (coefficients f) ->
                           poly_mod N m f = Ok (R f)).
  { intros m Hm Hlen Hrange. rewrite poly_mod_ok by lia. f_equal.
    unfold R. apply strip_ext. intros k. rewrite nth_reduced_coeffs.
    rewrite <- nth_coefficients.
    destruct (Nat.lt_ge_cases k (length (coefficients f))) as [Hk|Hk].
    - destruct (Nat.ltb_spec k N); [|lia].
      apply Z.mod_small. rewrite Forall_forall in Hrange.
      apply Hrange. apply nth_In. assumption.
    - rewrite nth_overflow by assumption.
      destruct (Nat.ltb_spec k N); [apply Zmod_0_l | reflexivity]. }
  unfold poly_mod_q, poly_mod_p. repeat split; intros.
  - apply Hidem; assumption.
  - apply Hidem; assumption.
  - apply Hfix; assumption.
  - apply Hfix; assumption.
Qed.

Lemma poly_mod_idempotent_witness :
  (forall g, poly_mod_q 11 32 [40; -1; 7] = Ok g -> poly_mod_q 11 32 g = Ok g) /\
  (forall g, poly_mod_p 11 3 [40; -1; 7] = Ok g -> poly_mod_p 11 3 g = Ok g) /\
  ((length (coefficients [40; -1; 7]%Z) <= 11)%nat ->
   Forall (fun c => 0 <= c < 32) (coefficients [40; -1; 7]) ->
   poly_mod_q 11 32 [40; -1; 7] = Ok (R [40; -1; 7])) /\
  ((length (coefficients [40; -1; 7]%Z) <= 11)%nat ->
   Forall (fun c => 0 <= c < 3) (coefficients [40; -1; 7]) ->
   poly_mod_p 11 3 [40; -1; 7] = Ok (R [40; -1; 7])).
Proof. apply poly_mod_idempotent; discriminate. Defined.

(** ** Multiplication in the ring *)

Lemma nth_mul_coeffs_act (a b : list Z) (t : nat) :
  nth t (mul_coeffs a b) 0
  = act (mul_coeffs a b) (fun j => if (j =? t)%nat then 1 else 0) 0.
Proof. symmetry. apply act_indicator. intros i _. reflexivity. Qed.

(** The product of [ZZ[x]] is commutative. *)
Lemma poly_mul_comm (a b : poly) : poly_mul a b = poly_mul b a.
Proof.
  unfold poly_mul, R. apply strip_ext. intros t.
  rewrite !nth_mul_coeffs_act, !act_mul. apply act_comm.
Qed.

Lemma poly_reduce_mul_strip (N : nat) (a b : poly) :
  N <> 0%nat ->
  poly_reduce N (poly_mul (coefficients a) (coefficients b)) = poly_reduce N (poly_mul a b).
Proof.
  intros HN. apply poly_reduce_ext; [assumption|]. intros v k _.
  unfold poly_mul, R, coefficients. rewrite !act_strip, !act_mul, act_strip.
  apply act_ext. intros j. apply act_strip.
Qed.

(** The coefficients of a product under [poly_mult_mod]. *)
Lemma poly_mult_mod_nth (N : nat) (p q : Z) (a b g : poly) (m : Z) (k : nat) :
  N <> 0%nat -> m <> 0 -> m = p \/ m = q ->
  (length (coefficients a) <= N)%nat -> (length (coefficients b) <= N)%nat ->
  poly_mult_mod N p q a b m = Ok g ->
  nth k g 0 = if (k <? N)%nat then cyclic_coeff N a b k mod m else 0.
Proof.
  intros HN Hm Hpq Ha Hb Hg.
  rewrite poly_mult_mod_eq in Hg by auto.
  destruct (poly_reduce N (poly_mul a b)) as [red|] eqn:Er; cbn [bind] in Hg;
    [|discriminate].
  inversion Hg; subst g. rewrite nth_R, nth_reduced_coeffs.
  destruct (Nat.ltb_spec k N) as [Hk|Hk]; [|reflexivity].
  rewrite <- poly_reduce_mul_strip in Er by assumption.
  rewrite (@nth_reduce_mul N _ _ red k HN Ha Hb Er).
  destruct (Nat.ltb_spec k N); [|lia].
  rewrite (@cyclic_coeff_ext N (coefficients a) a (coefficients b) b);
    try reflexivity; intros i _; apply nth_coefficients.
Qed.

(** X5: for [N > 0] and a positive modulus that is [p] or [q],
    [poly_mult_mod] returns a polynomial of degree below [N] with
    coefficients in [0, modulus); for factors of degree below [N] its
    coefficient at [k < N] is [sum_i a_i * b_((k - i) mod N)] reduced
    modulo the modulus. *)
Theorem poly_mult_mod_cyclic (N : nat) (p q : Z) (a b : poly) (m : Z) :
  N <> 0%nat -> 0 < m -> m = p \/ m = q ->
  exists g,
    poly_mult_mod N p q a b m = Ok g /\
    (length (coefficients g) <= N)%nat /\
    Forall (fun c => 0 <= c < m) (coefficients g) /\
    ((length (coefficients a) <= N)%nat -> (length (coefficients b) <= N)%nat ->
     forall k, nth k g 0 = if (k <? N)%nat then cyclic_coeff N a b k mod m else 0).
Proof.
  intros HN Hm Hpq.
  destruct (@poly_mult_mod_ok N HN p q a b m ltac:(lia) Hpq)
    as (g & Hg & Hl & Hn & Hr & _).
  exists g. unfold coefficients. rewrite Hn.
  split; [assumption|]. split; [assumption|]. split; [auto|].
  intros Ha Hb k.
  apply (@poly_mult_mod_nth N p q a b g m k); auto. lia.
Qed.

Lemma poly_mult_mod_cyclic_witness :
  exists g,
    poly_mult_mod 11 3 32 [1; 2; 0; -1] [5; 0; 0; 0; 0; 0; 0; 0; 0; 0; 7] 32 = Ok g /\
    (length (coefficients g) <= 11)%nat /\
    Forall (fun c => 0 <= c < 32) (coefficients g) /\
    ((length (coefficients [1; 2; 0; -1]%Z) <= 11)%nat ->
     (length (coefficients [5; 0; 0; 0; 0; 0; 0; 0; 0; 0; 7]%Z) <= 11)%nat ->
     forall k, nth k g 0
               = if (k <? 11)%nat
                 then cyclic_coeff 11 [1; 2; 0; -1]
                                   [5; 0; 0; 0; 0; 0; 0; 0; 0; 0; 7] k mod 32
                 else 0).
Proof. apply poly_mult_mod_cyclic; [discriminate | reflexivity | right; reflexivity]. Defined.

(** X6: [poly_mult_mod] is commutative, whatever the modulus and [N]. *)
Theorem poly_mult_mod_comm (N : nat) (p q : Z) (a b : poly) (m : Z) :
  poly_mult_mod N p q a b m = poly_mult_mod N p q b a m.
Proof. unfold poly_mult_mod. rewrite (poly_mul_comm a b). reflexivity. Qed.

(** X7: for [N > 0] and a positive modulus that is [p] or [q],
    [poly_mult_mod] is associative: both ways of multiplying three
    polynomials return, and return the same polynomial. *)
Theorem poly_mult_mod_assoc (N : nat) (p q : Z) (a b c : poly) (m : Z) :
  N <> 0%nat -> 0 < m -> m = p \/ m = q ->
  exists ab bc g,
    poly_mult_mod N p q a b m = Ok ab /\
    poly_mult_mod N p q b c m = Ok bc /\
    poly_mult_mod N p q ab c m = Ok g /\
    poly_mult_mod N p q a bc m = Ok g.
Proof.
  intros HN Hm Hpq.
  destruct (@poly_mult_mod_ok N HN p q a b m ltac:(lia) Hpq)
    as (ab & Hab & _ & _ & _ & Cab).
  destruct (@poly_mult_mod_ok N HN p q b c m ltac:(lia) Hpq)
    as (bc & Hbc & _ & _ & _ & Cbc).
  destruct (@poly_mult_mod_ok N HN p q ab c m ltac:(lia) Hpq)
    as (g1 & Hg1 & Hl1 & Hn1 & Hr1 & C1).
  destruct (@poly_mult_mod_ok N HN p q a bc m ltac:(lia) Hpq)
    as (g2 & Hg2 & Hl2 & Hn2 & Hr2 & C2).
  exists ab, bc, g1. repeat split; try assumption.
  rewrite Hg2. f_equal. rewrite <- Hn1, <- Hn2. symmetry.
  apply (@ring_cong_unique N m); auto.
  apply ring_cong_trans with (mul_coeffs ab c); [assumption|].
  apply ring_cong_trans with (mul_coeffs a bc); [|apply ring_cong_sym; assumption].
  apply ring_cong_trans with (mul_coeffs (mul_coeffs a b) c).
  { apply ring_cong_mul; [assumption | apply ring_cong_refl]. }
  apply ring_cong_trans with (mul_coeffs a (mul_coeffs b c)).
  { intros v k _. rewrite !act_mul.
    rewrite (act_ext a (act (mul_coeffs b c) v) (act b (act c v)))
      by (intros j; apply act_mul).
    rewrite Z.sub_diag. apply Z.divide_0_r. }
  apply ring_cong_mul; [apply ring_cong_refl | apply ring_cong_sym; assumption].
Qed.

Lemma poly_mult_mod_assoc_witness :
  exists ab bc g,
    poly_mult_mod 11 3 32 [1; 2; 0; -1] [0; 0; 0; 0; 0; 0; 0; 0; 0; 5; 7] 32 = Ok ab /\
    poly_mult_mod 11 3 32 [0; 0; 0; 0; 0; 0; 0; 0; 0; 5; 7] [3; -4; 9] 32 = Ok bc /\
    poly_mult_mod 11 3 32 ab [3; -4; 9] 32 = Ok g /\
    poly_mult_mod 11 3 32 [1; 2; 0; -1] bc 32 = Ok g.
Proof. apply poly_mult_mod_assoc; [discriminate | reflexivity | right; reflexivity]. Defined.

(** X8: for [N > 0] and a positive modulus that is [p] or [q], the
    constant 1 is neutral for [poly_mult_mod] on the polynomials of degree
    below [N] with coefficients in [0, modulus). *)
Theorem poly_mult_mod_one (N : nat) (p q : Z) (a : poly) (m : Z) :
  N <> 0%nat -> 0 < m -> m = p \/ m = q ->
  (length (coefficients a) <= N)%nat ->
  Forall (fun c => 0 <= c < m) (coefficients a) ->
  poly_mult_mod N p q a (R [1]) m = Ok (R a).
Proof.
  intros HN Hm Hpq Hlen Hrange.
  destruct (@poly_mult_mod_ok N HN p q a (R [1]) m ltac:(lia) Hpq)
    as (g & Hg & Hl & Hn & Hr & Hc).
  rewrite Hg. f_equal. rewrite <- Hn. unfold R. rewrite <- (strip_idem a).
  apply (@ring_cong_unique N m); auto.
  intros v k Hv. specialize (Hc v k Hv). rewrite act_mul in Hc.
  rewrite act_strip.
  rewrite (act_ext a (act (R [1]) v) v) in Hc by (intros j; apply act_one).
  exact Hc.
Qed.

Lemma poly_mult_mod_one_witness :
  poly_mult_mod 11 3 32 [19; 26; 0; 31] (R [1]) 32 = Ok (R [19; 26; 0; 31]).
Proof.
  apply poly_mult_mod_one.
  - discriminate.
  - reflexivity.
  - right. reflexivity.
  - apply Nat.leb_le. reflexivity.
  - repeat (apply Forall_cons; [lia|]). apply Forall_nil.
Defined.

(** ** Errors of decryption *)

(** X9: for [N > 0], [decrypt] raises [ZeroDivisionError] whenever [p] or
    [q] is 0, whatever the ciphertext and the key. *)
Theorem decrypt_zero_modulus (N : nat) (p q : Z) (c f fp_inv : poly) :
  N <> 0%nat -> p = 0 \/ q = 0 ->
  decrypt N p q c (f, fp_inv) = Raise ZeroDivisionError.
Proof.
  intros HN Hz. unfold decrypt.
  destruct (Z.eq_dec q 0) as [Hq|Hq].
  - subst q. unfold poly_mult_mod.
    destruct (poly_reduce_ok HN (poly_mul f c)) as (red & Hred & _).
    rewrite Hred. cbn [bind].
    destruct (Z.eqb_spec 0 p) as [<-|Hp].
    + unfold poly_mod_p. rewrite poly_mod_zero by assumption. reflexivity.
    + rewrite Z.eqb_refl. unfold poly_mod_q.
      rewrite poly_mod_zero by assumption. reflexivity.
  - destruct Hz as [Hp|Hq']; [|contradiction]. subst p.
    destruct (@poly_mult_mod_ok N HN 0 q f c q Hq (or_intror eq_refl)) as (a & Ha & _).
    rewrite Ha. cbn [bind]. unfold poly_mod_p.
    rewrite poly_mod_zero by assumption. reflexivity.
Qed.

Lemma decrypt_zero_modulus_witness :
  decrypt 11 0 32 [19; 26; 20] ([1; 1; 0; -1], [2; 0; 1]) = Raise ZeroDivisionError.
Proof. apply decrypt_zero_modulus; [discriminate | left; reflexivity]. Defined.

(** ** Encryption *)

Lemma firstn_pad_ext (N : nat) (a b : list Z) :
  (forall k, (k < N)%nat -> nth k a 0 = nth k b 0) ->
  firstn N (pad N a) = firstn N (pad N b).
Proof.
  intros H. apply (nth_ext _ _ 0 0).
  - rewrite !length_firstn_pad. reflexivity.
  - intros k Hk. rewrite length_firstn_pad in Hk. rewrite !nth_firstn.
    destruct (Nat.ltb_spec k N); [|lia]. rewrite !nth_pad. apply H. assumption.
Qed.

(** The coefficient reduction reads the first [N] coefficients only. *)
Lemma poly_mod_ext (N : nat) (m : Z) (f f' : poly) :
  (forall k, (k < N)%nat -> nth k f 0 = nth k f' 0) ->
  poly_mod N m f = poly_mod N m f'.
Proof.
  intros H. unfold poly_mod.
  rewrite (@firstn_pad_ext N (coefficients f) (coefficients f')); [reflexivity|].
  intros k Hk. rewrite !nth_coefficients. apply H. assumption.
Qed.

Lemma third_twice_le (N : nat) : (N / 3 + N / 3 <= N)%nat.
Proof. pose proof (Nat.div_mod_eq N 3). lia. Qed.

(** X10: for [N > 0], [q > 0] and a generator that keeps the promise of
    [random.sample], [encrypt] returns for every coefficient list, however
    long; the ciphertext has degree below [N] and coefficients in [0, q),
    and for a public key of degree below [N] its coefficient at [k < N] is
    [(r * h)_k + m_k] modulo [q], with [r] the small polynomial drawn and
    [(r * h)_k] the coefficient of the cyclic product. *)
Theorem encrypt_spec (N : nat) (p q : Z) (rng : Type)
        (sample : nat -> nat -> rng -> list nat * rng)
        (m : list Z) (h : poly) (s : rng) :
  sample_spec sample -> N <> 0%nat -> 0 < q ->
  exists r c s',
    random_small_poly N sample (N / 3) (N / 3) s = Ok (r, s') /\
    small_poly N (N / 3) (N / 3) r /\
    encrypt N p q sample (Coeffs m) h s = Ok (c, s') /\
    (length (coefficients c) <= N)%nat /\
    Forall (fun x => 0 <= x < q) (coefficients c) /\
    ((length (coefficients h) <= N)%nat ->
     forall k, nth k c 0
               = if (k <? N)%nat then (cyclic_coeff N r h k + nth k m 0) mod q else 0).
Proof.
  intros Hsample HN Hq.
  destruct (@random_small_poly_ok N rng sample Hsample (N / 3) (N / 3) s
              (third_twice_le N)) as (r & Hr & Hsmall).
  destruct (@random_small_poly_inv N rng sample Hsample _ _ _ _ _ Hr) as (_ & _ & Hrn).
  exists r. unfold encrypt. cbn [message_coeffs bind]. rewrite Hr. cbn [bind].
  destruct (@poly_mult_mod_ok N HN p q r h q ltac:(lia) (or_intror eq_refl))
    as (c1 & Hc1 & Hl1 & _).
  rewrite Hc1. cbn [bind]. unfold poly_mod_q. rewrite poly_mod_ok by lia. cbn [bind].
  eexists. eexists. split; [reflexivity|]. split; [exact Hsmall|].
  split; [reflexivity|]. rewrite coefficients_R. unfold R. split; [|split].
  - rewrite <- (length_reduced_coeffs N q (poly_add c1 (strip m))) at 2.
    apply length_strip.
  - apply Forall_strip, reduced_coeffs_range. assumption.
  - intros Hh k. rewrite nth_strip, nth_reduced_coeffs.
    destruct (Nat.ltb_spec k N) as [Hk|Hk]; [|reflexivity].
    unfold poly_add, R. rewrite nth_strip, nth_add_coeffs, nth_strip.
    rewrite (@poly_mult_mod_nth N p q r h c1 q k HN ltac:(lia) (or_intror eq_refl)
               (proj1 Hsmall) Hh Hc1).
    destruct (Nat.ltb_spec k N); [|lia].
    apply Z.add_mod_idemp_l. lia.
Qed.

Lemma encrypt_spec_witness :
  exists r c s',
    random_small_poly 11 replay_sample (11 / 3) (11 / 3) [[9; 4; 5; 0; 6; 3]%nat]
    = Ok (r, s') /\
    small_poly 11 (11 / 3) (11 / 3) r /\
    encrypt 11 3 32 replay_sample (Coeffs [1; 0; 1; 1; 0; 0; 1; 0; 1; 0; 0]) demo_h
            [[9; 4; 5; 0; 6; 3]%nat] = Ok (c, s') /\
    (length (coefficients c) <= 11)%nat /\
    Forall (fun x => 0 <= x < 32) (coefficients c) /\
    ((length (coefficients demo_h) <= 11)%nat ->
     forall k, nth k c 0
               = if (k <? 11)%nat
                 then (cyclic_coeff 11 r demo_h k
                       + nth k [1; 0; 1; 1; 0; 0; 1; 0; 1; 0; 0] 0) mod 32
                 else 0).
Proof.
  apply encrypt_spec; [apply replay_sample_spec | discriminate | reflexivity].
Defined.

(** X11: [encrypt] reads the first [N] coefficients of the message only:
    what a longer list holds from index [N] on is dropped without an
    error, so the list and its first [N] entries encrypt alike. *)
Theorem encrypt_truncates_message (N : nat) (p q : Z) (rng : Type)
        (sample : nat -> nat -> rng -> list nat * rng)
        (m : list Z) (h : poly) (s : rng) :
  encrypt N p q sample (Coeffs m) h s
  = encrypt N p q sample (Coeffs (firstn N m)) h s.
Proof.
  unfold encrypt. cbn [message_coeffs bind].
  destruct (random_small_poly N sample (N / 3) (N / 3) s) as [[r s']|];
    cbn [bind]; [|reflexivity].
  destruct (poly_mult_mod N p q r h q) as [c1|]; cbn [bind]; [|reflexivity].
  unfold poly_mod_q.
  rewrite (@poly_mod_ext N q (poly_add c1 (R m)) (poly_add c1 (R (firstn N m))));
    [reflexivity|].
  intros k Hk. unfold poly_add, R. rewrite !nth_strip, !nth_add_coeffs, !nth_strip.
  rewrite nth_firstn. destruct (Nat.ltb_spec k N); [reflexivity | lia].
Qed.

(** X12: a text is encoded character by character as the code point
    modulo [p], over the first [N] characters: for [p <> 0] two texts
    whose first [N] code points are congruent modulo [p] encrypt alike,
    and the text encrypts as its list of residues does; for [p = 0] and
    [N > 0] a text that is not empty raises [ZeroDivisionError]. *)
Theorem encrypt_text (N : nat) (p q : Z) (rng : Type)
        (sample : nat -> nat -> rng -> list nat * rng)
        (chars chars' : list Z) (h : poly) (s : rng) :
  (p <> 0 ->
   encrypt N p q sample (Text chars) h s
   = encrypt N p q sample (Coeffs (map (fun c => c mod p) (firstn N chars))) h s) /\
  (p <> 0 ->
   map (fun c => c mod p) (firstn N chars) = map (fun c => c mod p) (firstn N chars') ->
   encrypt N p q sample (Text chars) h s = encrypt N p q sample (Text chars') h s) /\
  (p = 0 -> N <> 0%nat -> chars <> [] ->
   encrypt N p q sample (Text chars) h s = Raise ZeroDivisionError).
Proof.
  assert (Henc : forall cs, p <> 0 ->
             encrypt N p q sample (Text cs) h s
             = encrypt N p q sample (Coeffs (map (fun c => c mod p) (firstn N cs))) h s).
  { intros cs Hp. unfold encrypt. cbn [message_coeffs].
    rewrite map_py_mod_ok by assumption. cbn [bind].
    replace (R (pad N (map (fun c => c mod p) (firstn N cs))))
      with (R (map (fun c => c mod p) (firstn N cs))); [reflexivity|].
    unfold R. apply strip_ext. intros k. rewrite nth_pad. reflexivity. }
  split; [apply Henc|]. split.
  - intros Hp Heq. rewrite !Henc by assumption. rewrite Heq. reflexivity.
  - intros Hp HN Hc. subst p. unfold encrypt. cbn [message_coeffs].
    rewrite map_py_mod_zero; [reflexivity|].
    destruct chars; [congruence|]. destruct N; [congruence | discriminate].
Qed.

(** ** Key generation, encryption and decryption together *)

(** What a run of [keygen] that returns went through. *)
Lemma keygen_inv (N : nat) (p q : Z) (rng : Type)
      (sample : nat -> nat -> rng -> list nat * rng)
      (quotient_inverse : Z -> nat -> list Z -> result (list Z))
      (depth : nat) (s s' : rng) (f fp_inv h : poly) :
  keygen N p q sample quotient_inverse depth s = Ok ((f, fp_inv), h, s') ->
  exists (g : poly) (fp fq : list Z) (s0 s1 : rng),
    random_small_poly N sample (N / 3 + 1) (N / 3) s0 = Ok (f, s1) /\
    random_small_poly N sample (N / 3) (N / 3) s1 = Ok (g, s') /\
    inv_poly N quotient_inverse f p = Some fp /\ fp_inv = R (firstn N fp) /\
    inv_poly N quotient_inverse f q = Some fq /\
    poly_mult_mod N p q (poly_scale p (R (firstn N fq))) g q = Ok h.
Proof.
  revert s. induction depth as [|depth IH]; intros s Hrun; [discriminate|].
  rewrite keygen_unfold in Hrun.
  destruct (random_small_poly N sample (N / 3 + 1) (N / 3) s) as [[f1 s1]|] eqn:E1;
    cbn [bind] in Hrun; [|discriminate].
  destruct (random_small_poly N sample (N / 3) (N / 3) s1) as [[g s2]|] eqn:E2;
    cbn [bind] in Hrun; [|discriminate].
  destruct (inv_poly N quotient_inverse f1 p) as [fp|] eqn:Ep;
    [|exact (IH s2 Hrun)].
  destruct (inv_poly N quotient_inverse f1 q) as [fq|] eqn:Eq;
    [|exact (IH s2 Hrun)].
  destruct (poly_mult_mod N p q (poly_scale p (R (firstn N fq))) g q) as [h1|] eqn:Eh;
    cbn [bind] in Hrun; [|discriminate].
  inversion Hrun; subst f1 fp_inv h1 s2.
  exists g, fp, fq, s, s1. repeat split; assumption.
Qed.

Lemma inv_poly_inverse (N : nat) (p q : Z)
      (quotient_inverse : Z -> nat -> list Z -> result (list Z))
      (f : poly) (m : Z) (inv : list Z) :
  inverse_spec quotient_inverse ->
  N <> 0%nat -> 1 < m -> m = p \/ m = q ->
  (length (coefficients f) <= N)%nat ->
  inv_poly N quotient_inverse f m = Some inv ->
  poly_mult_mod N p q f (R (firstn N inv)) m = Ok (R [1]).
Proof.
  intros Hspec HN Hm Hpq Hlen Hinv. apply inverse_mult_mod; auto.
  apply Hspec. unfold inv_poly in Hinv.
  destruct (quotient_inverse m N (firstn N (pad N (coefficients f)))); congruence.
Qed.

(** Encryption followed by decryption, for the [r] that [encrypt] draws. *)
Lemma encrypt_decrypt (N : nat) (p q : Z) (rng : Type)
      (sample : nat -> nat -> rng -> list nat * rng)
      (f g fp_inv fq_inv h r : poly) (m : list Z) (s s' : rng) :
  N <> 0%nat -> 0 < p -> 0 < q ->
  poly_mult_mod N p q f fp_inv p = Ok (R [1]) ->
  poly_mult_mod N p q f fq_inv q = Ok (R [1]) ->
  poly_mult_mod N p q (poly_scale p fq_inv) g q = Ok h ->
  (length m <= N)%nat ->
  Forall (fun c => 0 <= c < p) m ->
  random_small_poly N sample (N / 3) (N / 3) s = Ok (r, s') ->
  below_half q (noise N p f g r (R m)) ->
  exists c,
    encrypt N p q sample (Coeffs m) h s = Ok (c, s') /\
    decrypt N p q c (f, fp_inv) = Ok (R m).
Proof.
  intros HN Hp Hq Hfp Hfq Hh Hlen Hrange Hr Hnoise.
  unfold encrypt. cbn [message_coeffs bind]. rewrite Hr. cbn [bind].
  destruct (@poly_mult_mod_ok N HN p q r h q ltac:(lia) (or_intror eq_refl))
    as (c1 & Hc1 & _).
  rewrite Hc1. cbn [bind].
  unfold poly_mod_q at 1. rewrite poly_mod_ok by lia. cbn [bind].
  eexists. split; [reflexivity|].
  apply (@round_trip_with N p q HN Hp Hq f g fp_inv fq_inv h r m
           Hfp Hfq Hh Hlen Hrange Hnoise c1); [assumption|].
  unfold poly_mod_q. apply poly_mod_ok. lia.
Qed.

(** X13: a key pair that [keygen] returns decrypts what [encrypt] makes
    with its public key: with collaborators that keep their promises and
    moduli above 1, for the [g] drawn during key generation, every message
    of at most [N] coefficients in [0, p) and every [r] drawn by [encrypt]
    whose noise [p * r * g + f * m] stays below [q/2] comes back from
    [decrypt]. *)
Theorem keygen_encrypt_decrypt (N : nat) (p q : Z) (rng : Type)
        (sample : nat -> nat -> rng -> list nat * rng)
        (quotient_inverse : Z -> nat -> list Z -> result (list Z))
        (depth : nat) (s0 s1 : rng) (f fp_inv h : poly) :
  sample_spec sample -> inverse_spec quotient_inverse -> 1 < p -> 1 < q ->
  keygen N p q sample quotient_inverse depth s0 = Ok ((f, fp_inv), h, s1) ->
  exists g : poly,
    small_poly N (N / 3) (N / 3) g /\
    forall (m : list Z) (r : poly) (s s' : rng),
      (length m <= N)%nat ->
      Forall (fun c => 0 <= c < p) m ->
      random_small_poly N sample (N / 3) (N / 3) s = Ok (r, s') ->
      below_half q (noise N p f g r (R m)) ->
      exists c,
        encrypt N p q sample (Coeffs m) h s = Ok (c, s') /\
        decrypt N p q c (f, fp_inv) = Ok (R m).
Proof.
  intros Hsample Hinv Hp Hq Hrun.
  destruct (keygen_inv _ _ _ _ _ _ _ Hrun)
    as (g & fp & fq & t0 & t1 & Ef & Eg & Ep & -> & Eq & Eh).
  destruct (@random_small_poly_inv N rng sample Hsample _ _ _ _ _ Ef) as (Hd & Hf & _).
  destruct (@random_small_poly_inv N rng sample Hsample _ _ _ _ _ Eg) as (_ & Hg & _).
  assert (HN : N <> 0%nat) by lia.
  exists g. split; [exact Hg|].
  intros m r s s' Hlen Hrange Hr Hnoise.
  apply (@encrypt_decrypt N p q rng sample f g (R (firstn N fp)) (R (firstn N fq)) h r m s s');
    auto; try lia.
  - apply (@inv_poly_inverse N p q quotient_inverse f p fp); auto. apply Hf.
  - apply (@inv_poly_inverse N p q quotient_inverse f q fq); auto. apply Hf.
Qed.

Lemma keygen_encrypt_decrypt_witness :
  exists g : poly,
    small_poly 11 (11 / 3) (11 / 3) g /\
    forall (m : list Z) (r : poly) (s s' : list (list nat)),
      (length m <= 11)%nat ->
      Forall (fun c => 0 <= c < 3) m ->
      random_small_poly 11 replay_sample (11 / 3) (11 / 3) s = Ok (r, s') ->
      below_half 32 (noise 11 3 demo_f g r (R m)) ->
      exists c,
        encrypt 11 3 32 replay_sample (Coeffs m) demo_h s = Ok (c, s') /\
        decrypt 11 3 32 c (demo_f, demo_fp_inv) = Ok (R m).
Proof.
  apply (@keygen_encrypt_decrypt 11 3 32 _ replay_sample (search_inverse 2000) 3
           demo_draws []).
  - apply replay_sample_spec.
  - apply search_inverse_spec.
  - reflexivity.
  - reflexivity.
  - vm_compute. reflexivity.
Defined.

(** ** Parameters that make decryption exact *)

(** The number of coefficients 1 and -1. *)
Definition weight (a : list Z) : nat :=
  (count_occ Z.eq_dec a 1%Z + count_occ Z.eq_dec a (-1)%Z)%nat.

Lemma act_bound (a : list Z) (w : nat -> Z) (B : Z) (k : nat) :
  Forall (fun c => c = 1 \/ c = -1 \/ c = 0) a ->
  (forall j, Z.abs (w j) <= B) ->
  Z.abs (act a w k) <= Z.of_nat (weight a) * B.
Proof.
  intros Ha. revert w. induction Ha as [|x a Hx _ IH]; intros w Hw.
  - simpl. pose proof (Hw 0%nat). lia.
  - cbn [act]. specialize (IH (shift w) (fun j => Hw (S j))).
    pose proof (Hw k) as Hk. unfold weight in *.
    destruct Hx as [-> | [-> | ->]].
    + rewrite count_occ_cons_eq by reflexivity.
      rewrite (@count_occ_cons_neq _ Z.eq_dec a 1 (-1)) by discriminate.
      rewrite Nat.add_succ_l, Nat2Z.inj_succ, Z.mul_succ_l. lia.
    + rewrite (@count_occ_cons_neq _ Z.eq_dec a (-1) 1) by discriminate.
      rewrite count_occ_cons_eq by reflexivity.
      rewrite Nat.add_succ_r, Nat2Z.inj_succ, Z.mul_succ_l. lia.
    + rewrite !count_occ_cons_neq by discriminate. lia.
Qed.

(** On [delta N] a list no longer than [N] shows one coefficient at a
    time. *)
Lemma act_delta_single (N : nat) (a : list Z) (j : nat) :
  N <> 0%nat -> (length a <= N)%nat -> exists t, act a (delta N) j = nth t a 0.
Proof.
  intros HN Ha.
  pose proof (periodic_act a (periodic_delta N)) as Hper.
  rewrite <- (periodic_mod j Hper).
  pose proof (Nat.mod_upper_bound j N HN) as Hr.
  set (r := (j mod N)%nat) in *.
  destruct (Nat.eq_dec r 0) as [->|Hne].
  - exists 0%nat. rewrite <- (Hper 0%nat). simpl Nat.add.
    replace N with (N - 0)%nat at 2 by lia. apply act_delta; lia.
  - exists (N - r)%nat. replace r with (N - (N - r))%nat at 1 by lia.
    apply act_delta; lia.
Qed.

Lemma nth_ternary (a : list Z) (t : nat) :
  Forall (fun c => c = 1 \/ c = -1 \/ c = 0) a -> Z.abs (nth t a 0) <= 1.
Proof.
  intros Ha. destruct (Nat.lt_ge_cases t (length a)) as [Ht|Ht].
  - rewrite Forall_forall in Ha. destruct (Ha _ (nth_In a 0 Ht)) as [-> | [-> | ->]]; lia.
  - rewrite nth_overflow by assumption. lia.
Qed.

(** The noise of small polynomials is bounded by their weights. *)
Lemma noise_bounded (N : nat) (p q : Z) (f g r : poly) (m : list Z)
      (a1 a2 b1 b2 d1 d2 : nat) :
  N <> 0%nat -> 1 <= p ->
  small_poly N a1 a2 f -> small_poly N b1 b2 g -> small_poly N d1 d2 r ->
  (length m <= N)%nat -> Forall (fun c => 0 <= c < p) m ->
  2 * (p * Z.of_nat (d1 + d2) + (p - 1) * Z.of_nat (a1 + a2)) < q ->
  below_half q (noise N p f g r (R m)).
Proof.
  intros HN Hp (Hlf & Hf1 & Hf2 & Hft) (Hlg & _ & _ & Hgt) (Hlr & Hr1 & Hr2 & Hrt)
         Hlm Hmr Hq.
  unfold noise.
  destruct (poly_reduce_ok HN
              (poly_add (poly_scale p (poly_mul r g)) (poly_mul f (R m))))
    as (e & He & Hle & Hne & Hact).
  exists e. split; [assumption|]. unfold coefficients. rewrite Hne.
  apply Forall_forall. intros c Hc.
  destruct (In_nth _ _ 0 Hc) as (k & Hk & <-).
  assert (HkN : (k < N)%nat) by lia.
  rewrite <- (act_delta e Hle HkN), (Hact _ _ (periodic_delta N)).
  unfold poly_add, poly_scale, poly_mul, R.
  rewrite act_strip, act_add, act_strip, act_scale, !act_strip, !act_mul.
  assert (Hrg : Z.abs (act r (act g (delta N)) (N - k)) <= Z.of_nat (d1 + d2)).
  { rewrite <- (act_strip r).
    replace (Z.of_nat (d1 + d2)) with (Z.of_nat (weight (strip r)) * 1)
      by (unfold weight; fold (coefficients r); rewrite Hr1, Hr2; lia).
    apply act_bound; [exact Hrt|]. intros j. rewrite <- (act_strip g).
    destruct (@act_delta_single N (strip g) j HN Hlg) as (t & ->).
    apply nth_ternary. exact Hgt. }
  assert (Hfm : Z.abs (act f (act (strip m) (delta N)) (N - k))
                <= Z.of_nat (a1 + a2) * (p - 1)).
  { rewrite <- (act_strip f).
    replace (Z.of_nat (a1 + a2)) with (Z.of_nat (weight (strip f)))
      by (unfold weight; fold (coefficients f); rewrite Hf1, Hf2; lia).
    apply act_bound; [exact Hft|]. intros j. rewrite act_strip.
    destruct (@act_delta_single N m j HN Hlm) as (t & ->).
    pose proof (@nth_in_range p m t ltac:(lia) Hmr). lia. }
  assert (Hprod : Z.abs (p * act r (act g (delta N)) (N - k)) <= p * Z.of_nat (d1 + d2)).
  { rewrite Z.abs_mul, (Z.abs_eq p) by lia. apply Z.mul_le_mono_nonneg_l; lia. }
  lia.
Qed.

(** X14: when [q] exceeds twice [p * 2d + (p - 1) * (2d + 1)], with
    [d = N // 3], decryption is exact: a key pair that [keygen] returned
    (with collaborators that keep their promises and [p > 1]) gives back
    every message of at most [N] coefficients in [0, p), whatever
    [encrypt] draws. *)
Theorem round_trip_large_q (N : nat) (p q : Z) (rng : Type)
        (sample : nat -> nat -> rng -> list nat * rng)
        (quotient_inverse : Z -> nat -> list Z -> result (list Z))
        (depth : nat) (s0 s1 : rng) (f fp_inv h : poly) (m : list Z) (s : rng) :
  sample_spec sample -> inverse_spec quotient_inverse -> 1 < p ->
  2 * (p * (2 * Z.of_nat (N / 3)) + (p - 1) * (2 * Z.of_nat (N / 3) + 1)) < q ->
  keygen N p q sample quotient_inverse depth s0 = Ok ((f, fp_inv), h, s1) ->
  (length m <= N)%nat ->
  Forall (fun c => 0 <= c < p) m ->
  exists c s',
    encrypt N p q sample (Coeffs m) h s = Ok (c, s') /\
    decrypt N p q c (f, fp_inv) = Ok (R m).
Proof.
  intros Hsample Hinv Hp Hq Hrun Hlen Hrange.
  destruct (keygen_inv _ _ _ _ _ _ _ Hrun)
    as (g & fp & fq & t0 & t1 & Ef & Eg & Ep & -> & Eq & Eh).
  destruct (@random_small_poly_inv N rng sample Hsample _ _ _ _ _ Ef) as (Hd & Hf & _).
  destruct (@random_small_poly_inv N rng sample Hsample _ _ _ _ _ Eg) as (_ & Hg & _).
  assert (HN : N <> 0%nat) by lia.
  destruct (@random_small_poly_ok N rng sample Hsample (N / 3) (N / 3) s
              (third_twice_le N)) as (r & Hr & Hsmall).
  assert (Hq1 : 1 < q).
  { assert (0 <= p * (2 * Z.of_nat (N / 3))) by (apply Z.mul_nonneg_nonneg; lia).
    assert (1 * 1 <= (p - 1) * (2 * Z.of_nat (N / 3) + 1))
      by (apply Z.mul_le_mono_nonneg; lia).
    lia. }
  destruct (@encrypt_decrypt N p q rng sample f g (R (firstn N fp)) (R (firstn N fq))
              h r m s (snd (sample N (N / 3 + N / 3)%nat s))) as (c & Hc & Hdec);
    auto; try lia.
  - apply (@inv_poly_inverse N p q quotient_inverse f p fp); auto. apply Hf.
  - apply (@inv_poly_inverse N p q quotient_inverse f q fq); auto. apply Hf.
  - apply (@noise_bounded N p q f g r m (N / 3 + 1) (N / 3) (N / 3) (N / 3)
             (N / 3) (N / 3)); auto; lia.
  - exists c, (snd (sample N (N / 3 + N / 3)%nat s)). auto.
Qed.

Lemma round_trip_large_q_witness :
  exists c s',
    encrypt 11 3 128 replay_sample (Coeffs [0; 1; 2; 0; 1; 2; 1; 2; 2; 1; 2])
            [19; 122; 116; 122; 83; 66; 30; 2; 12; 114; 82]
            [[0; 1; 3; 6; 7; 9]%nat] = Ok (c, s') /\
    decrypt 11 3 128 c (demo_f, demo_fp_inv) = Ok (R [0; 1; 2; 0; 1; 2; 1; 2; 2; 1; 2]).
Proof.
  apply (@round_trip_large_q 11 3 128 _ replay_sample (search_inverse 2000) 3
           demo_draws []).
  - apply replay_sample_spec.
  - apply search_inverse_spec.
  - reflexivity.
  - reflexivity.
  - vm_compute. reflexivity.
  - apply Nat.leb_le. reflexivity.
  - repeat (apply Forall_cons; [lia|]). apply Forall_nil.
Defined.

(** ** Centering after reduction *)

(** X15: centering undoes the reduction modulo [q] on small
    polynomials: for [q > 0] and a polynomial of degree below [N] whose
    coefficients are below [q/2] in absolute value, [poly_mod_q] followed
    by the centering step of [decrypt] returns the polynomial. *)
Theorem center_undoes_poly_mod_q (N : nat) (q : Z) (e : poly) :
  0 < q ->
  (length (coefficients e) <= N)%nat ->
  Forall (fun c => 2 * Z.abs c < q) (coefficients e) ->
  exists a, poly_mod_q N q e = Ok a /\ center N q a = R e.
Proof.
  intros Hq Hlen Hsmall. unfold poly_mod_q. rewrite poly_mod_ok by lia.
  eexists. split; [reflexivity|].
  unfold center, R. apply strip_ext. intros k.
  assert (He : 2 * Z.abs (nth k e 0) < q).
  { rewrite <- nth_coefficients.
    destruct (Nat.lt_ge_cases k (length (coefficients e))) as [Hk|Hk].
    - rewrite Forall_forall in Hsmall. apply Hsmall. apply nth_In. assumption.
    - rewrite nth_overflow by assumption. simpl. lia. }
  destruct (Nat.lt_ge_cases k N) as [Hk|Hk].
  - rewrite nth_map_lt by (rewrite length_firstn_pad; assumption).
    rewrite nth_firstn. destruct (Nat.ltb_spec k N); [|lia].
    rewrite nth_pad, nth_coefficients, nth_strip, nth_reduced_coeffs.
    destruct (Nat.ltb_spec k N); [|lia].
    apply center_recovers; [apply Z.mod_pos_bound; lia | assumption |].
    apply mod_divide_sub. lia.
  - rewrite nth_overflow by (rewrite length_map, length_firstn_pad; assumption).
    rewrite <- nth_coefficients. symmetry. apply nth_overflow. lia.
Qed.

Lemma center_undoes_poly_mod_q_witness :
  exists a, poly_mod_q 11 32 [3; -15; 0; 15; -1] = Ok a /\
            center 11 32 a = R [3; -15; 0; 15; -1].
Proof.
  apply center_undoes_poly_mod_q.
  - reflexivity.
  - apply Nat.leb_le. reflexivity.
  - repeat (apply Forall_cons; [lia|]). apply Forall_nil.
Defined.

(** ** Retries of key generation *)

Lemma third_twice_succ_le (N : nat) : N <> 0%nat -> (N / 3 + 1 + N / 3 <= N)%nat.
Proof. intros HN. pose proof (Nat.div_mod_eq N 3). lia. Qed.

(** Under Sage's contract a polynomial that is not a unit gets [None]. *)
Lemma inv_poly_non_unit (N : nat)
      (quotient_inverse : Z -> nat -> list Z -> result (list Z)) (a : poly) (m : Z) :
  inverse_spec quotient_inverse ->
  ~ is_unit m N (coefficients a) ->
  inv_poly N quotient_inverse a m = None.
Proof.
  intros Hspec Hnot. unfold inv_poly.
  destruct (quotient_inverse m N (firstn N (pad N (coefficients a)))) as [b|e] eqn:E;
    [|reflexivity].
  exfalso. apply Hnot. exists b. intros k Hk.
  rewrite (@cyclic_coeff_ext N _ (firstn N (pad N (coefficients a))) _ b).
  - apply (Hspec _ _ _ _ E). assumption.
  - intros i Hi. rewrite nth_firstn, nth_pad.
    destruct (Nat.ltb_spec i N); [reflexivity | lia].
  - reflexivity.
Qed.

(** For [N = 3] the polynomial [f] that [keygen] draws has three
    coefficients, each 1 or -1. *)
Lemma small_three (f : poly) :
  small_poly 3 2 1 f ->
  exists x y z,
    coefficients f = [x; y; z] /\
    (x = 1 \/ x = -1) /\ (y = 1 \/ y = -1) /\ (z = 1 \/ z = -1).
Proof.
  intros (Hlen & H1 & H2 & Ht).
  destruct (coefficients f) as [|x [|y [|z [|w t]]]].
  - discriminate.
  - inversion Ht as [|? ? Hx _]; subst.
    destruct Hx as [-> | [-> | ->]]; vm_compute in H1; discriminate.
  - inversion Ht as [|? ? Hx Ht']; subst. inversion Ht' as [|? ? Hy _]; subst.
    destruct Hx as [-> | [-> | ->]]; destruct Hy as [-> | [-> | ->]];
      vm_compute in H1, H2; discriminate.
  - inversion Ht as [|? ? Hx Ht']; subst. inversion Ht' as [|? ? Hy Ht'']; subst.
    inversion Ht'' as [|? ? Hz _]; subst.
    exists x, y, z. split; [reflexivity|].
    destruct Hx as [-> | [-> | ->]]; destruct Hy as [-> | [-> | ->]];
      destruct Hz as [-> | [-> | ->]];
      vm_compute in H1, H2; try discriminate; auto.
  - simpl in Hlen. lia.
Qed.

Lemma cyclic_coeff_three (x y z : Z) (b : list Z) :
  cyclic_coeff 3 [x; y; z] b 0
  = x * nth 0 b 0 + (y * nth 2 b 0 + (z * nth 1 b 0 + 0)) /\
  cyclic_coeff 3 [x; y; z] b 1
  = x * nth 1 b 0 + (y * nth 0 b 0 + (z * nth 2 b 0 + 0)).
Proof. split; reflexivity. Qed.

(** Three odd coefficients: modulo 2 the polynomial is [1 + x + x^2],
    which [x - 1] annihilates, so it has no inverse modulo an even
    number. *)
Lemma odd_three_not_unit (q x y z : Z) :
  Z.even q = true ->
  (x = 1 \/ x = -1) -> (y = 1 \/ y = -1) -> (z = 1 \/ z = -1) ->
  ~ is_unit q 3 [x; y; z].
Proof.
  intros Hq Hx Hy Hz [b Hb].
  apply Z.even_spec in Hq. destruct Hq as [q' ->].
  pose proof (Hb 0%nat ltac:(lia)) as H0.
  pose proof (Hb 1%nat ltac:(lia)) as H1.
  destruct (cyclic_coeff_three x y z b) as [E0 E1].
  rewrite E0 in H0. rewrite E1 in H1. cbn [Nat.eqb] in H0, H1.
  destruct H0 as [t Ht]. destruct H1 as [t' Ht'].
  set (b0 := nth 0 b 0) in *. set (b1 := nth 1 b 0) in *. set (b2 := nth 2 b 0) in *.
  destruct Hx as [-> | ->]; destruct Hy as [-> | ->]; destruct Hz as [-> | ->]; lia.
Qed.

(** X16: with [N = 3] and an even [q], [keygen] never returns a key.
    Every [f] it draws has three odd coefficients and so no inverse
    modulo [q]; with collaborators that keep their promises every run
    retries until the recursion limit and raises [RecursionError]. *)
Theorem keygen_exhausts (p q : Z) (rng : Type)
        (sample : nat -> nat -> rng -> list nat * rng)
        (quotient_inverse : Z -> nat -> list Z -> result (list Z))
        (depth : nat) (s : rng) :
  sample_spec sample -> inverse_spec quotient_inverse -> Z.even q = true ->
  keygen 3 p q sample quotient_inverse depth s = Raise RecursionError.
Proof.
  intros Hsample Hspec Hq. revert s.
  induction depth as [|depth IH]; intros s; [reflexivity|].
  destruct (@random_small_poly_ok 3 rng sample Hsample (3 / 3 + 1) (3 / 3) s
              (@third_twice_succ_le 3 ltac:(discriminate))) as (f & Hf & Hsmall).
  destruct (@random_small_poly_ok 3 rng sample Hsample (3 / 3) (3 / 3)
              (snd (sample 3%nat (3 / 3 + 1 + 3 / 3)%nat s))
              (third_twice_le 3)) as (g & Hg & _).
  rewrite (@keygen_retry 3 p q rng sample quotient_inverse depth s _ _ f g Hf Hg).
  - apply IH.
  - right. apply inv_poly_non_unit; [assumption|].
    destruct (small_three Hsmall) as (x & y & z & -> & Hx & Hy & Hz).
    apply odd_three_not_unit; assumption.
Qed.

Lemma keygen_exhausts_witness :
  keygen 3 3 32 replay_sample (search_inverse 2000) 50 [[2; 0; 1]; [1; 2]]%nat
  = Raise RecursionError.
Proof.
  apply keygen_exhausts.
  - apply replay_sample_spec.
  - apply search_inverse_spec.
  - reflexivity.
Defined.

(** X17: [inv_poly] reads the first [N] coefficients only: polynomials
    that agree below index [N] get the same answer, so a polynomial of
    degree [N] or more is inverted as its truncation, not as its residue
    modulo [x^N - 1]. *)
Theorem inv_poly_reads_first_N (N : nat)
        (quotient_inverse : Z -> nat -> list Z -> result (list Z))
        (f f' : poly) (m : Z) :
  (forall k, (k < N)%nat -> nth k f 0 = nth k f' 0) ->
  inv_poly N quotient_inverse f m = inv_poly N quotient_inverse f' m.
Proof.
  intros H. unfold inv_poly.
  rewrite (@firstn_pad_ext N (coefficients f) (coefficients f')); [reflexivity|].
  intros k Hk. rewrite !nth_coefficients. apply H. assumption.
Qed.

Lemma inv_poly_reads_first_N_witness :
  inv_poly 3 (search_inverse 100) [2; 1; 0; 1] 5
  = inv_poly 3 (search_inverse 100) [2; 1] 5.
Proof.
  apply inv_poly_reads_first_N. intros k Hk.
  destruct k as [|[|[|k]]]; try reflexivity. lia.
Defined.

(** ** The demonstration *)

Lemma coeffs_eqb_eq (a b : list Z) : coeffs_eqb a b = true <-> a = b.
Proof.
  revert b. induction a as [|x a IH]; intros [|y b]; simpl; split; intros H;
    try reflexivity; try discriminate.
  - apply andb_prop in H. destruct H as [H1 H2].
    apply Z.eqb_eq in H1. apply IH in H2. congruence.
  - inversion H; subst. rewrite Z.eqb_refl. apply IH. reflexivity.
Qed.

(** Lines 240-245 of [main]: the recovered coefficients, padded to the
    length of the message and cut to it, are compared with the message. *)
Definition recovered_matches (message : list Z) (recovered : poly) : bool :=
  let recovered_coeffs := pad (length message) (coefficients recovered) in
  coeffs_eqb message (firstn (length message) recovered_coeffs).

(** [main], with its verdict as result. *)
Definition main (rng : Type) (sample : nat -> nat -> rng -> list nat * rng)
           (quotient_inverse : Z -> nat -> list Z -> result (list Z))
           (depth : nat) (s : rng) : result bool :=
  let message := [1; 0; 1; 1; 0; 0; 1; 0; 1; 0; 0] in
  ' (private_key, public_key, s1) <- keygen 11 3 32 sample quotient_inverse depth s ;;
  ' (ciphertext, s2) <- encrypt 11 3 32 sample (Coeffs message) public_key s1 ;;
  recovered <- decrypt 11 3 32 ciphertext private_key ;;
  Ok (recovered_matches message recovered).

Lemma recovered_matches_nth (message : list Z) (recovered : poly) :
  recovered_matches message recovered = true
  <-> forall k, (k < length message)%nat -> nth k recovered 0 = nth k message 0.
Proof.
  unfold recovered_matches. rewrite coeffs_eqb_eq. split.
  - intros H k Hk.
    assert (E : nth k message 0
                = nth k (firstn (length message)
                                (pad (length message) (coefficients recovered))) 0)
      by (rewrite <- H; reflexivity).
    rewrite E, nth_firstn.
    destruct (Nat.ltb_spec k (length message)); [|lia].
    rewrite nth_pad, nth_coefficients. reflexivity.
  - intros H. apply (nth_ext _ _ 0 0).
    + rewrite length_firstn_pad. reflexivity.
    + intros k Hk. rewrite nth_firstn.
      destruct (Nat.ltb_spec k (length message)); [|lia].
      rewrite nth_pad, nth_coefficients. symmetry. apply H. assumption.
Qed.

Lemma nth_below_eq (message : list Z) (recovered : poly) :
  (length (coefficients recovered) <= length message)%nat ->
  ((forall k, (k < length message)%nat -> nth k recovered 0 = nth k message 0)
   <-> coefficients recovered = R message).
Proof.
  intros Hlen. split.
  - intros H. unfold coefficients, R. apply strip_ext. intros k.
    destruct (Nat.lt_ge_cases k (length message)) as [Hk|Hk].
    + apply H. assumption.
    + rewrite (nth_overflow message) by assumption.
      rewrite <- nth_coefficients. apply nth_overflow. lia.
  - intros H k _. rewrite <- nth_coefficients, H. apply nth_R.
Qed.

(** X18: the comparison at the end of [main] succeeds exactly when the
    recovered polynomial has the coefficients of the message below the
    length of the message; for a recovered polynomial no longer than the
    message that is equality with the message polynomial, and what a
    longer one holds beyond is not looked at. *)
Theorem recovered_matches_spec (message : list Z) (recovered : poly) :
  (recovered_matches message recovered = true
   <-> forall k, (k < length message)%nat -> nth k recovered 0 = nth k message 0) /\
  ((length (coefficients recovered) <= length message)%nat ->
   (recovered_matches message recovered = true <-> coefficients recovered = R message)).
Proof.
  split; [apply recovered_matches_nth|].
  intros Hlen. rewrite recovered_matches_nth. apply nth_below_eq. assumption.
Qed.

(** X19: a run of [main] that reaches its verdict went through
    [keygen], [encrypt] and [decrypt], and the verdict is a success
    exactly when [decrypt] returned the message polynomial. *)
Theorem main_verdict (rng : Type) (sample : nat -> nat -> rng -> list nat * rng)
        (quotient_inverse : Z -> nat -> list Z -> result (list Z))
        (depth : nat) (s : rng) (verdict : bool) :
  main sample quotient_inverse depth s = Ok verdict ->
  exists (f fp_inv h c recovered : poly) (s1 s2 : rng),
    keygen 11 3 32 sample quotient_inverse depth s = Ok ((f, fp_inv), h, s1) /\
    encrypt 11 3 32 sample (Coeffs [1; 0; 1; 1; 0; 0; 1; 0; 1; 0; 0]) h s1 = Ok (c, s2) /\
    decrypt 11 3 32 c (f, fp_inv) = Ok recovered /\
    (verdict = true <-> recovered = R [1; 0; 1; 1; 0; 0; 1; 0; 1; 0; 0]).
Proof.
  unfold main. intros Hrun.
  destruct (keygen 11 3 32 sample quotient_inverse depth s) as [[[[f fp_inv] h] s1]|];
    cbn [bind] in Hrun; [|discriminate].
  destruct (encrypt 11 3 32 sample (Coeffs [1; 0; 1; 1; 0; 0; 1; 0; 1; 0; 0]) h s1)
    as [[c s2]|] eqn:Eenc; cbn [bind] in Hrun; [|discriminate].
  destruct (decrypt 11 3 32 c (f, fp_inv)) as [recovered|] eqn:Edec;
    cbn [bind] in Hrun; [|discriminate].
  inversion Hrun; subst verdict. clear Hrun.
  exists f, fp_inv, h, c, recovered, s1, s2.
  split; [reflexivity|]. split; [exact Eenc|]. split; [exact Edec|].
  assert (HN : 11%nat <> 0%nat) by discriminate.
  unfold decrypt in Edec.
  destruct (poly_mult_mod 11 3 32 f c 32) as [a|]; cbn [bind] in Edec; [|discriminate].
  destruct (poly_mod_p 11 3 (center 11 32 a)) as [b|]; cbn [bind] in Edec; [|discriminate].
  destruct (@poly_mult_mod_ok 11 HN 3 32 fp_inv b 3 ltac:(lia) (or_introl eq_refl))
    as (r' & Hr' & Hlen & Hnorm & _).
  rewrite Edec in Hr'. inversion Hr'; subst r'.
  rewrite recovered_matches_nth.
  rewrite (@nth_below_eq [1; 0; 1; 1; 0; 0; 1; 0; 1; 0; 0] recovered)
    by (unfold coefficients; rewrite Hnorm; exact Hlen).
  unfold coefficients. rewrite Hnorm. reflexivity.
Qed.

(** With these draws [main] reports a failed decryption of its own
    message. *)
Lemma main_verdict_witness :
  exists (f fp_inv h c recovered : poly) (s1 s2 : list (list nat)),
    keygen 11 3 32 replay_sample (search_inverse 2000) 3
           [[3; 9; 7; 1; 8; 2; 4]; [0; 6; 3; 10; 2; 7]; [0; 9; 3; 7; 2; 10]]%nat
    = Ok ((f, fp_inv), h, s1) /\
    encrypt 11 3 32 replay_sample (Coeffs [1; 0; 1; 1; 0; 0; 1; 0; 1; 0; 0]) h s1
    = Ok (c, s2) /\
    decrypt 11 3 32 c (f, fp_inv) = Ok recovered /\
    (false = true <-> recovered = R [1; 0; 1; 1; 0; 0; 1; 0; 1; 0; 0]).
Proof.
  apply (@main_verdict _ replay_sample (search_inverse 2000) 3
           [[3; 9; 7; 1; 8; 2; 4]; [0; 6; 3; 10; 2; 7]; [0; 9; 3; 7; 2; 10]]%nat false).
  vm_compute. reflexivity.
Defined.

(** ** Decryption and congruent ciphertexts *)

(** X20: for positive [N], [p], [q], [decrypt] depends on the ciphertext
    only through its residue modulo [q] and [x^N - 1]: congruent
    ciphertexts decrypt alike under every key. *)
Theorem decrypt_congruent (N : nat) (p q : Z) (c c' f fp_inv : poly) :
  N <> 0%nat -> 0 < p -> 0 < q ->
  congruent N q c c' ->
  decrypt N p q c (f, fp_inv) = decrypt N p q c' (f, fp_inv).
Proof.
  intros HN Hp Hq Hc. apply (congruent_ring_cong q c c' HN) in Hc.
  unfold decrypt.
  destruct (@poly_mult_mod_ok N HN p q f c q ltac:(lia) (or_intror eq_refl))
    as (a & Ha & Hl & Hn & Hr & Hcong).
  destruct (@poly_mult_mod_ok N HN p q f c' q ltac:(lia) (or_intror eq_refl))
    as (a' & Ha' & Hl' & Hn' & Hr' & Hcong').
  assert (E : a = a').
  { rewrite <- Hn, <- Hn'. apply (@ring_cong_unique N q); auto.
    apply ring_cong_trans with (mul_coeffs f c); [assumption|].
    apply ring_cong_trans with (mul_coeffs f c'); [|apply ring_cong_sym; assumption].
    apply ring_cong_mul; [apply ring_cong_refl | assumption]. }
  rewrite Ha, Ha', E. reflexivity.
Qed.

Lemma decrypt_congruent_witness :
  decrypt 11 3 32 [8; 6; 15; 17; 12; 5; 10; 22; 18; 28; 1] (demo_f, demo_fp_inv)
  = decrypt 11 3 32 [40; 6; 15; 17; 12; 5; 10; 22; 18; 28; 0; 0; 0; 0; 0; 0; 0; 0; 0; 0; 0; 1]
            (demo_f, demo_fp_inv).
Proof.
  apply decrypt_congruent.
  - discriminate.
  - reflexivity.
  - reflexivity.
  - eexists. eexists. split; [vm_compute; reflexivity|].
    split; [vm_compute; reflexivity|].
    intros k.
    do 11 (destruct k as [|k];
           [apply Z.mod_divide; [discriminate | vm_compute; reflexivity]|]).
    destruct k; simpl; apply Z.divide_0_r.
Defined.
